(** * TOTP-JS: a shallow embedding of [src/totp.ts] and its properties

    The TypeScript module exports [generateTOTPSecret], [generateTOTP],
    [verifyTOTP] and [generateTOTPURI]; its private helpers are
    [toUint8Array], [base32Decode] and [hotp].  Every function below keeps
    the name of the function it embeds.

    Conventions of the embedding.
    - A JavaScript [number] that the code uses as an integer is a [Z].  The
      32-bit wrap-around of the bitwise operators and the 64-bit wrap-around
      of [DataView.setBigUint64] are written out.  A number that is not
      finite (the result of dividing by zero) is [NonFinite].
    - A [Uint8Array] is a [list byte].
    - A string is a [string] of 8-bit characters: the UTF-8 bytes of the
      text.  The Unicode case table of the platform, which
      [String.prototype.toUpperCase] applies to what is not ASCII, is a
      parameter, [unicodeUpper].
    - [throw] is the [Throw] completion; an [async] function returns a
      [Promise]: the calls it made to the HMAC provider, in order, and the
      completion it settles with. *)

From Stdlib Require Import ZArith QArith Qround List String Ascii Bool Lia.
From coqutil Require Import Byte.
From Equations Require Import Equations.
Import ListNotations.

Local Open Scope string_scope.
Local Open Scope list_scope.
Local Open Scope Z_scope.

(** ** Completions *)

Inductive exn : Type :=
| Error (msg : string)  (* new Error(msg) *)
| RangeError            (* thrown by BigInt() on a number that is not an integer *)
| DataError             (* DOMException of crypto.subtle.importKey: empty key *)
| QuotaExceededError.   (* DOMException of crypto.getRandomValues: over 65536 bytes *)

Inductive completion (A : Type) : Type :=
| Return (a : A)
| Throw (e : exn).
Arguments Return {A} a.
Arguments Throw {A} e.

(** ** The JavaScript primitives the module calls *)

Module Js.

(** A number used as an integer, or a value on which [BigInt()] throws
    (Infinity, -Infinity, NaN). *)
Inductive number : Type :=
| Int (z : Z)
| NonFinite.

(** [x + k] for an integer [k]. *)
Definition add (x : number) (k : Z) : number :=
  match x with
  | Int z => Int (z + k)
  | NonFinite => NonFinite
  end.

(** [Math.floor(a / 1000 / b)] for integers [a] and [b]; the quotient is
    taken in the rationals, and division by zero is not finite. *)
Definition floor_div_1000 (a b : Z) : number :=
  if b =? 0 then NonFinite
  else Int (Qfloor ((inject_Z a / inject_Z 1000) / inject_Z b)%Q).

(** [ToInt32]: the operand conversion of the bitwise operators. *)
Definition ToInt32 (z : Z) : Z :=
  let m := z mod 2 ^ 32 in
  if 2 ^ 31 <=? m then m - 2 ^ 32 else m.

(** [a & b], [a | b] and [a << n] on numbers. *)
Definition and (a b : Z) : Z := Z.land (ToInt32 a) (ToInt32 b).
Definition or (a b : Z) : Z := Z.lor (ToInt32 a) (ToInt32 b).
Definition shl (a n : Z) : Z := ToInt32 (Z.shiftl (ToInt32 a) (n mod 32)).

(** [arr[i]] on a typed array: [None] is [undefined]. *)
Definition get (arr : list byte) (i : Z) : option byte :=
  if i <? 0 then None else nth_error arr (Z.to_nat i).

(** [ToNumber] of an array element, as the bitwise operators see it:
    [undefined] is NaN, which [ToInt32] sends to 0. *)
Definition elem (v : option byte) : Z :=
  match v with
  | Some b => byte.unsigned b
  | None => 0
  end.

(** The digit characters of [Number.prototype.toString]. *)
Definition digitChar (d : Z) : ascii :=
  match String.get (Z.to_nat d) "0123456789abcdefghijklmnopqrstuvwxyz" with
  | Some c => c
  | None => "?"%char
  end.

(** The digits of a positive integer [n] in base [radix], most
    significant first, in front of [acc]. *)
Fixpoint toDigits (fuel : nat) (radix n : Z) (acc : string) : string :=
  match fuel with
  | O => acc
  | S fuel' =>
      let acc' := String (digitChar (n mod radix)) acc in
      if n / radix =? 0 then acc' else toDigits fuel' radix (n / radix) acc'
  end.

(** [n.toString(radix)] for an integer [n] and [2 <= radix <= 36]. *)
Definition toString (radix n : Z) : string :=
  let fuel := S (Z.to_nat (Z.log2 (Z.abs n))) in
  if n <? 0 then String "-" (toDigits fuel radix (- n) "")
  else toDigits fuel radix n "".

(** [padString] repeated and cut to [n] characters. *)
Fixpoint filler (fuel n : nat) (padString : string) : string :=
  match fuel with
  | O => ""
  | S fuel' =>
      if (n <=? String.length padString)%nat then String.substring 0 n padString
      else padString ++ filler fuel' (n - String.length padString) padString
  end.

(** [s.padStart(targetLength, padString)]. *)
Definition padStart (s : string) (targetLength : nat) (padString : string) : string :=
  if (targetLength <=? String.length s)%nat then s
  else if (String.length padString =? 0)%nat then s
  else filler (targetLength - String.length s) (targetLength - String.length s) padString ++ s.

(** The upper case of an ASCII character: a-z go to A-Z, the others are
    kept. *)
Definition upper (c : ascii) : ascii :=
  let n := nat_of_ascii c in
  if ((97 <=? n) && (n <=? 122))%nat then ascii_of_nat (n - 32) else c.

Definition isASCII (c : ascii) : bool := (nat_of_ascii c <? 128)%nat.

(** What becomes of a stretch of non-ASCII text once it has ended:
    [unicodeUpper] is the Unicode case table of the platform, which may
    lengthen the text and may answer with ASCII letters (U+017F gives S,
    U+00DF gives SS, U+FB01 gives FI). *)
Definition upperRun (unicodeUpper : string -> string) (run : string) : string :=
  match run with
  | EmptyString => EmptyString
  | _ => unicodeUpper run
  end.

(** [s.toUpperCase()] on the UTF-8 bytes of [s]: ASCII characters go
    through [upper], each maximal stretch of other bytes through
    [unicodeUpper].  [run] is the stretch being read. *)
Fixpoint toUpperCase_from (unicodeUpper : string -> string) (run s : string) : string :=
  match s with
  | EmptyString => upperRun unicodeUpper run
  | String c s' =>
      if isASCII c
      then upperRun unicodeUpper run
             ++ String (upper c) (toUpperCase_from unicodeUpper EmptyString s')
      else toUpperCase_from unicodeUpper (run ++ String c EmptyString) s'
  end.

Definition toUpperCase (unicodeUpper : string -> string) (s : string) : string :=
  toUpperCase_from unicodeUpper EmptyString s.

(** [s.replace(/=+$/, "")]: the match, if any, is the maximal run of "="
    that ends the string. *)
Fixpoint replace_trailing_eq (s : string) : string :=
  match s with
  | EmptyString => EmptyString
  | String c s' =>
      match replace_trailing_eq s' with
      | EmptyString => if (c =? "=")%char then EmptyString else String c EmptyString
      | r => String c r
      end
  end.

(** [s.indexOf(pat)]: the first position of [pat] in [s], or -1. *)
Definition indexOf (s pat : string) : Z :=
  match index 0 pat s with
  | Some i => Z.of_nat i
  | None => -1
  end.

(** [s.substring(i, j)] for [0 <= i <= j]. *)
Definition substring (i j : nat) (s : string) : string :=
  String.substring i (j - i) s.

(** The value of a digit character in [radix], if it is one. *)
Definition digitValue (radix : Z) (c : ascii) : option Z :=
  let n := Z.of_nat (nat_of_ascii c) in
  let v := if (48 <=? n) && (n <=? 57) then n - 48
           else if (97 <=? n) && (n <=? 122) then n - 87
           else if (65 <=? n) && (n <=? 90) then n - 55
           else 36 in
  if v <? radix then Some v else None.

(** The longest prefix of digits of [s], read in [radix]; [acc] is the
    value read so far, [None] while no digit has been read. *)
Fixpoint parseDigits (radix : Z) (s : string) (acc : option Z) : option Z :=
  match s with
  | EmptyString => acc
  | String c s' =>
      match digitValue radix c with
      | None => acc
      | Some v =>
          parseDigits radix s' (Some (match acc with
                                      | Some a => a * radix + v
                                      | None => v
                                      end))
      end
  end.

(** [parseInt(s, radix)] for [2 <= radix <= 36] and a string that starts
    with neither white space, a sign nor a "0x" prefix; [None] is NaN. *)
Definition parseInt (s : string) (radix : Z) : option Z :=
  parseDigits radix s None.

(** [s[i]] in a string concatenation: the character at [i], or the text
    of [undefined]. *)
Definition charAt (s : string) (i : Z) : string :=
  match (if i <? 0 then None else String.get (Z.to_nat i) s) with
  | Some c => String c EmptyString
  | None => "undefined"
  end.

(** A destructuring default: [{ x = d } = options]. *)
Definition default {A : Type} (v : option A) (d : A) : A :=
  match v with
  | Some a => a
  | None => d
  end.

(** [BigInt(num)]. *)
Definition BigInt (num : number) : completion Z :=
  match num with
  | Int z => Return z
  | NonFinite => Throw RangeError
  end.

(** [ToBigUint64]: the conversion [DataView.setBigUint64] applies. *)
Definition ToBigUint64 (v : Z) : Z := v mod 2 ^ 64.

(** [view.setBigUint64(byteOffset, value)] on a buffer that holds at
    least [byteOffset + 8] bytes: big-endian, the default. *)
Definition setBigUint64 (buffer : list byte) (byteOffset : nat) (value : Z) : list byte :=
  let raw := ToBigUint64 value in
  firstn byteOffset buffer
    ++ map (fun k => byte.of_Z (Z.shiftr raw (8 * (7 - k)))) [0; 1; 2; 3; 4; 5; 6; 7]
    ++ skipn (byteOffset + 8) buffer.

(** [s.replace(/-/g, "")]. *)
Fixpoint replace_hyphens (s : string) : string :=
  match s with
  | EmptyString => EmptyString
  | String c s' =>
      if (c =? "-")%char then replace_hyphens s' else String c (replace_hyphens s')
  end.

(** Percent-encoding of one byte: "%" and two upper-case hex digits. *)
Definition hexChar (d : nat) : ascii :=
  match String.get d "0123456789ABCDEF" with
  | Some c => c
  | None => "?"%char
  end.

Definition percent (c : ascii) : string :=
  let n := nat_of_ascii c in
  String "%" (String (hexChar (n / 16)) (String (hexChar (n mod 16)) EmptyString)).

Definition isAlnum (c : ascii) : bool :=
  let n := nat_of_ascii c in
  (((48 <=? n) && (n <=? 57)) || ((65 <=? n) && (n <=? 90))
   || ((97 <=? n) && (n <=? 122)))%nat.

Definition mem (c : ascii) (set : string) : bool :=
  match index 0 (String c EmptyString) set with
  | Some _ => true
  | None => false
  end.

(** [encodeURIComponent(s)] on the UTF-8 bytes of [s]: letters, digits
    and the marks - _ . ! ~ * ' ( ) are kept. *)
Fixpoint encodeURIComponent (s : string) : string :=
  match s with
  | EmptyString => EmptyString
  | String c s' =>
      (if isAlnum c || mem c "-_.!~*'()" then String c EmptyString else percent c)
        ++ encodeURIComponent s'
  end.

(** The application/x-www-form-urlencoded serializer of
    [URLSearchParams], on the UTF-8 bytes of [s]: a space becomes "+",
    letters, digits and * - . _ are kept. *)
Fixpoint urlencode (s : string) : string :=
  match s with
  | EmptyString => EmptyString
  | String c s' =>
      (if (c =? " ")%char then "+"
       else if isAlnum c || mem c "*-._" then String c EmptyString
       else percent c)
        ++ urlencode s'
  end.

(** [new URLSearchParams(record).toString()], the record given as its
    own properties in insertion order. *)
Fixpoint URLSearchParams_toString (params : list (string * string)) : string :=
  match params with
  | [] => ""
  | [(name, value)] => urlencode name ++ "=" ++ urlencode value
  | (name, value) :: rest =>
      urlencode name ++ "=" ++ urlencode value ++ "&" ++ URLSearchParams_toString rest
  end.

(** [new Uint8Array(numbers)]: each element goes through [ToUint8]
    (NaN becomes 0). *)
Definition ToUint8 (v : option Z) : byte :=
  match v with
  | Some z => byte.of_Z z
  | None => byte.of_Z 0
  end.

End Js.

(** ** Base32 and the counter encoding *)

(** [toUint8Array(num)]. *)
Definition toUint8Array (num : Js.number) : completion (list byte) :=
  let buffer := repeat (byte.of_Z 0) 8 in
  match Js.BigInt num with
  | Throw e => Throw e
  | Return big => Return (Js.setBigUint64 buffer 0 big)
  end.

Definition alphabet : string := "ABCDEFGHIJKLMNOPQRSTUVWXYZ234567".

(** The first loop of [base32Decode]: [for (const char of input)]. *)
Fixpoint base32Decode_bits (input : string) (bits : string) : completion string :=
  match input with
  | EmptyString => Return bits
  | String char input' =>
      let val := Js.indexOf alphabet (String char EmptyString) in
      if val =? -1 then Throw (Error "Invalid Base32 character in secret")
      else base32Decode_bits input' (bits ++ Js.padStart (Js.toString 2 val) 5 "0")
  end.

(** The second loop: [for (let i = 0; i + 8 <= bits.length; i += 8)]. *)
Equations base32Decode_output (bits : string) (i : nat) (output : list (option Z))
  : list (option Z) by wf (String.length bits - i)%nat lt :=
  base32Decode_output bits i output with le_dec (i + 8) (String.length bits) := {
    | left _ =>
        base32Decode_output bits (i + 8)
          (output ++ [Js.parseInt (Js.substring i (i + 8) bits) 2]);
    | right _ => output }.
Next Obligation. lia. Qed.

(** [base32Decode(input)], on a platform whose case table is
    [unicodeUpper]. *)
Definition base32Decode (unicodeUpper : string -> string) (input : string)
  : completion (list byte) :=
  let input := Js.toUpperCase unicodeUpper (Js.replace_trailing_eq input) in
  match base32Decode_bits input "" with
  | Throw e => Throw e
  | Return bits => Return (map Js.ToUint8 (base32Decode_output bits 0 []))
  end.

(** ** Promises and the HMAC provider *)

(** ["SHA-1" | "SHA-256" | "SHA-512"]. *)
Inductive HashAlgorithm : Type := SHA1 | SHA256 | SHA512.

Definition algorithmName (a : HashAlgorithm) : string :=
  match a with
  | SHA1 => "SHA-1"
  | SHA256 => "SHA-256"
  | SHA512 => "SHA-512"
  end.

(** The [CryptoKey] that [crypto.subtle.importKey] hands back. *)
Record CryptoKey : Type := { key_hash : HashAlgorithm; key_raw : list byte }.

(** A call to [crypto.subtle]. *)
Inductive call : Type :=
| ImportKey (hash : HashAlgorithm) (raw : list byte)
| Sign (key : CryptoKey) (data : list byte).

(** What an [async] function does: the provider calls it made, oldest
    first, and how it settles. *)
Definition Promise (A : Type) : Type := (list call * completion A)%type.

Definition resolve {A : Type} (a : A) : Promise A := ([], Return a).

Definition reject {A : Type} (e : exn) : Promise A := ([], Throw e).

(** [await m] followed by [k]. *)
Definition await {A B : Type} (m : Promise A) (k : A -> Promise B) : Promise B :=
  match snd m with
  | Throw e => (fst m, Throw e)
  | Return a => (fst m ++ fst (k a), snd (k a))
  end.

(** A synchronous computation inside an [async] body. *)
Definition sync {A : Type} (c : completion A) : Promise A := ([], c).

Notation "x <- m ;; k" := (await m (fun x => k))
  (at level 61, m at next level, right associativity).

Definition made {A : Type} (p : Promise A) : list call := fst p.
Definition settled {A : Type} (p : Promise A) : completion A := snd p.

(** ** Options *)

(** [digits] is a natural number: with a negative or fractional [digits],
    [10 ** digits] is not an integer and the code is cut from a
    floating-point remainder, which this embedding does not represent. *)

Record HOTPOptions : Type :=
  { hotp_digits : option nat;
    hotp_algorithm : option HashAlgorithm }.

Record TOTPOptions : Type :=
  { timeStep : option Z;
    digits : option nat;
    timestamp : option Z;
    algorithm : option HashAlgorithm;
    window : option Z }.

Record TOTPURIOptions : Type :=
  { accountName : string;
    issuer : string;
    secret : string;
    uri_digits : option Z;
    period : option Z;
    uri_algorithm : option HashAlgorithm }.

(** ** The module, over its platform services *)

Section Totp.

(** The Unicode case table behind [toUpperCase]. *)
Variable unicodeUpper : string -> string.

(** [HMAC hash key data]: the MAC that [crypto.subtle.sign] computes. *)
Variable HMAC : HashAlgorithm -> list byte -> list byte -> list byte.

(** The bytes that [crypto.getRandomValues] draws, by position. *)
Variable entropy : nat -> byte.

(** [crypto.subtle.importKey("raw", raw, { name: "HMAC", hash }, false,
    ["sign"])]: a key of length zero is refused. *)
Definition importKey (raw : list byte) (hash : HashAlgorithm) : Promise CryptoKey :=
  match raw with
  | [] => ([ImportKey hash raw], Throw DataError)
  | _ => ([ImportKey hash raw], Return {| key_hash := hash; key_raw := raw |})
  end.

Definition sign (key : CryptoKey) (data : list byte) : Promise (list byte) :=
  ([Sign key data], Return (HMAC (key_hash key) (key_raw key) data)).

(** [crypto.getRandomValues(arr)]: the array filled, or the refusal of
    more than 65536 bytes. *)
Definition getRandomValues (arr : list byte) : completion (list byte) :=
  if 65536 <? Z.of_nat (List.length arr) then Throw QuotaExceededError
  else Return (map entropy (seq 0 (List.length arr))).

(** The loop of [generateTOTPSecret]. *)
Definition generateTOTPSecret_loop (randomValues : list byte) (length : nat) : string :=
  fold_left
    (fun secret i =>
       (secret ++ match Js.get randomValues (Z.of_nat i) with
                  | Some b =>
                      Js.charAt alphabet
                        (Z.rem (byte.unsigned b) (Z.of_nat (String.length alphabet)))
                  | None => "undefined" (* undefined % 32 is NaN *)
                  end)%string)
    (seq 0 length) "".

(** [generateTOTPSecret(length)]. *)
Definition generateTOTPSecret (length : nat) : completion string :=
  match getRandomValues (repeat (byte.of_Z 0) length) with
  | Throw e => Throw e
  | Return randomValues => Return (generateTOTPSecret_loop randomValues length)
  end.

(** The dynamic truncation inside [hotp]: [offset] and [binary]. *)
Definition hotp_offset (hmac : list byte) : Z :=
  Js.and (Js.elem (Js.get hmac (Z.of_nat (List.length hmac) - 1))) 15.

Definition hotp_binary (hmac : list byte) : Z :=
  let offset := hotp_offset hmac in
  Js.or (Js.or (Js.or (Js.shl (Js.and (Js.elem (Js.get hmac offset)) 127) 24)
                      (Js.shl (Js.and (Js.elem (Js.get hmac (offset + 1))) 255) 16))
               (Js.shl (Js.and (Js.elem (Js.get hmac (offset + 2))) 255) 8))
        (Js.and (Js.elem (Js.get hmac (offset + 3))) 255).

(** The last two lines of [hotp]. *)
Definition hotp_code (binary : Z) (digits : nat) : string :=
  let code := Js.toString 10 (Z.rem binary (10 ^ Z.of_nat digits)) in
  Js.padStart code digits "0".

(** [hotp(key, counter, options)]. *)
Definition hotp (key : list byte) (counter : Js.number) (options : HOTPOptions)
  : Promise string :=
  let digits := Js.default (hotp_digits options) 6%nat in
  let algorithm := Js.default (hotp_algorithm options) SHA1 in
  cryptoKey <- importKey key algorithm ;;
  data <- sync (toUint8Array counter) ;;
  hmac <- sign cryptoKey data ;;
  resolve (hotp_code (hotp_binary hmac) digits).

(** [generateTOTP(secret, options)], called when the clock reads [now]. *)
Definition generateTOTP (now : Z) (secret : string) (options : TOTPOptions)
  : Promise string :=
  let timeStep := Js.default (timeStep options) 30 in
  let digits := Js.default (digits options) 6%nat in
  let timestamp := Js.default (timestamp options) now in
  let algorithm := Js.default (algorithm options) SHA1 in
  decodedSecret <- sync (base32Decode unicodeUpper secret) ;;
  let counter := Js.floor_div_1000 timestamp timeStep in
  hotp decodedSecret counter
    {| hotp_digits := Some digits; hotp_algorithm := Some algorithm |}.

(** The loop of [verifyTOTP]:
    [for (let errorWindow = -window; errorWindow <= window; errorWindow++)]
    and the [return false] after it. *)
Equations verifyTOTP_loop (token : string) (decodedSecret : list byte)
  (counter : Js.number) (window : Z) (digits : nat) (algorithm : HashAlgorithm)
  (errorWindow : Z) : Promise bool by wf (Z.to_nat (window + 1 - errorWindow)) lt :=
  verifyTOTP_loop token decodedSecret counter window digits algorithm errorWindow
    with Z_le_dec errorWindow window := {
    | left _ =>
        otp <- hotp decodedSecret (Js.add counter errorWindow)
                 {| hotp_digits := Some digits; hotp_algorithm := Some algorithm |} ;;
        if (otp =? token)%string then resolve true
        else verifyTOTP_loop token decodedSecret counter window digits algorithm
               (errorWindow + 1);
    | right _ => resolve false }.
Next Obligation. lia. Qed.

(** [verifyTOTP(token, secret, options)], called when the clock reads [now]. *)
Definition verifyTOTP (now : Z) (token secret : string) (options : TOTPOptions)
  : Promise bool :=
  let window := Js.default (window options) 1 in
  let timeStep := Js.default (timeStep options) 30 in
  let digits := Js.default (digits options) 6%nat in
  let timestamp := Js.default (timestamp options) now in
  let algorithm := Js.default (algorithm options) SHA1 in
  decodedSecret <- sync (base32Decode unicodeUpper secret) ;;
  let counter := Js.floor_div_1000 timestamp timeStep in
  verifyTOTP_loop token decodedSecret counter window digits algorithm (- window).

End Totp.

(** [generateTOTPURI(options)]. *)
Definition generateTOTPURI (options : TOTPURIOptions) : string :=
  let accountName := accountName options in
  let issuer := issuer options in
  let secret := secret options in
  let digits := Js.default (uri_digits options) 6 in
  let period := Js.default (period options) 30 in
  let algorithm := Js.default (uri_algorithm options) SHA1 in
  let label := Js.encodeURIComponent (issuer ++ ":" ++ accountName) in
  let params :=
    [ ("secret", secret);
      ("issuer", issuer);
      ("algorithm", Js.replace_hyphens (algorithmName algorithm));
      ("digits", Js.toString 10 digits);
      ("period", Js.toString 10 period) ] in
  "otpauth://totp/" ++ label ++ "?" ++ Js.URLSearchParams_toString params.

(** ** The demo page: the arithmetic of [startCountdown]

    [startCountdown(period)] of the demo page reads the clock, computes the
    second at which the shown code will change, arms a timeout that calls
    [refreshCode] and an interval that calls [updateDisplay].  The timers
    and the page are not modelled: [startCountdown] below returns what the
    function computes, and [updateDisplay] what the display callback
    computes from it at a later clock reading. *)

(** [Math.floor(a / b)] for integers [a] and [b]. *)
Definition floor_div (a b : Z) : Js.number :=
  if b =? 0 then Js.NonFinite else Js.Int (a / b).

Record Countdown : Type :=
  { nextRefreshTime : Js.number;   (* seconds since the epoch *)
    msUntilRefresh : Js.number }.  (* the delay given to setTimeout *)

(** [startCountdown(period)], called when the clock reads [now]. *)
Definition startCountdown (now period : Z) : Countdown :=
  let currentTimeSeconds := now / 1000 in
  let nextRefreshTime :=
    match floor_div currentTimeSeconds period with
    | Js.Int q => Js.Int ((q + 1) * period)
    | Js.NonFinite => Js.NonFinite
    end in
  let msUntilRefresh :=
    match nextRefreshTime with
    | Js.Int next => Js.Int ((next - currentTimeSeconds) * 1000)
    | Js.NonFinite => Js.NonFinite
    end in
  {| nextRefreshTime := nextRefreshTime; msUntilRefresh := msUntilRefresh |}.


(** ** Definitions used to state the properties *)

(** The integers [a, a+1, ..., b]. *)
Definition interval (a b : Z) : list Z :=
  map (fun i => a + Z.of_nat i) (seq 0 (Z.to_nat (b + 1 - a))).

(** The options of a call that differs only in its [window]. *)
Definition withWindow (o : TOTPOptions) (w : option Z) : TOTPOptions :=
  {| timeStep := timeStep o;
     digits := digits o;
     timestamp := timestamp o;
     algorithm := algorithm o;
     window := w |}.

(** The options [{ digits, algorithm }] that [generateTOTP] and [verifyTOTP]
    pass on to [hotp], defaults filled in. *)
Definition hotpOptions (o : TOTPOptions) : HOTPOptions :=
  {| hotp_digits := Some (Js.default (digits o) 6%nat);
     hotp_algorithm := Some (Js.default (algorithm o) SHA1) |}.

(** floor(timestamp / 1000 / timeStep) as an integer quotient ([/] on [Z]
    rounds down), for a call made when the clock reads [now]. *)
Definition baseCounter (now : Z) (o : TOTPOptions) : Z :=
  Js.default (timestamp o) now / (1000 * Js.default (timeStep o) 30).

(** The dynamic truncation as RFC 4226 words it, on unbounded integers:
    [mac[i]] is the byte at [i], the offset is the low nibble of the last
    byte, and four bytes from the offset on are packed, the top bit of the
    first one cleared. *)
Definition byteAt (mac : list byte) (i : Z) : Z :=
  byte.unsigned (nth (Z.to_nat i) mac Byte.x00).

Definition truncation_offset (mac : list byte) : Z :=
  Z.land (byteAt mac (Z.of_nat (List.length mac) - 1)) 15.

Definition truncation_binary (mac : list byte) : Z :=
  let offset := truncation_offset mac in
  Z.lor (Z.lor (Z.lor (Z.shiftl (Z.land (byteAt mac offset) 127) 24)
                      (Z.shiftl (byteAt mac (offset + 1)) 16))
               (Z.shiftl (byteAt mac (offset + 2)) 8))
        (byteAt mac (offset + 3)).

(** Base32 as RFC 4648 words it.  [base32Value] is the 5-bit value of a
    character of the alphabet A-Z 2-7; [bitstream] puts the 5 bits of each
    character one after the other, most significant first; [bytesOfBits]
    cuts whole bytes off the front of a bit stream and drops what is left. *)
Definition base32Value (c : ascii) : option Z :=
  let n := Z.of_nat (nat_of_ascii c) in
  if (65 <=? n) && (n <=? 90) then Some (n - 65)
  else if (50 <=? n) && (n <=? 55) then Some (n - 24)
  else None.

Definition inAlphabet (c : ascii) : bool :=
  match base32Value c with
  | Some _ => true
  | None => false
  end.

Fixpoint allInAlphabet (s : string) : bool :=
  match s with
  | EmptyString => true
  | String c s' => inAlphabet c && allInAlphabet s'
  end.

Definition bits5 (v : Z) : list bool :=
  [Z.testbit v 4; Z.testbit v 3; Z.testbit v 2; Z.testbit v 1; Z.testbit v 0].

Fixpoint bitstream (s : string) : list bool :=
  match s with
  | EmptyString => []
  | String c s' =>
      match base32Value c with
      | Some v => bits5 v ++ bitstream s'
      | None => bitstream s'
      end
  end.

Definition bitsValue (bits : list bool) : Z :=
  fold_left (fun acc (b : bool) => 2 * acc + (if b then 1 else 0)) bits 0.

Fixpoint bytesOfBits (bits : list bool) : list byte :=
  match bits with
  | b7 :: b6 :: b5 :: b4 :: b3 :: b2 :: b1 :: b0 :: rest =>
      byte.of_Z (bitsValue [b7; b6; b5; b4; b3; b2; b1; b0]) :: bytesOfBits rest
  | _ => []
  end.

(** The text of a bit stream, as [base32Decode] keeps it: "0" and "1". *)
Fixpoint bitString (bits : list bool) : string :=
  match bits with
  | [] => EmptyString
  | b :: bits' => String (if b then "1" else "0")%char (bitString bits')
  end.

(** The provisioning URI as the specification writes it:
    otpauth://totp/<label>?secret=<as-is>&issuer=<form-encoded>
    &algorithm=<SHA1|SHA256|SHA512>&digits=<int>&period=<int>. *)
Definition uriAlgorithmName (a : HashAlgorithm) : string :=
  match a with
  | SHA1 => "SHA1"
  | SHA256 => "SHA256"
  | SHA512 => "SHA512"
  end.

Definition claimedURI (o : TOTPURIOptions) : string :=
  "otpauth://totp/" ++ Js.encodeURIComponent (issuer o ++ ":" ++ accountName o)
    ++ "?secret=" ++ secret o
    ++ "&issuer=" ++ Js.urlencode (issuer o)
    ++ "&algorithm=" ++ uriAlgorithmName (Js.default (uri_algorithm o) SHA1)
    ++ "&digits=" ++ Js.toString 10 (Js.default (uri_digits o) 6)
    ++ "&period=" ++ Js.toString 10 (Js.default (period o) 30).

(** The characters that form-urlencoding keeps as they are. *)
Definition formSafe (c : ascii) : bool := Js.isAlnum c || Js.mem c "*-._".

Fixpoint allFormSafe (s : string) : bool :=
  match s with
  | EmptyString => true
  | String c s' => formSafe c && allFormSafe s'
  end.

(** The character that [generateTOTPSecret] takes for a random byte. *)
Definition secretChar (b : byte) : option ascii :=
  String.get (Z.to_nat (byte.unsigned b mod 32)) alphabet.

(** The text that the loop of [generateTOTPSecret] builds from an array
    filled with the random bytes. *)
Definition secretText (entropy : nat -> byte) (length : nat) : string :=
  generateTOTPSecret_loop (map entropy (seq 0 length)) length.

(** Upper-casing of ASCII text as the alphabet has it, letter for letter;
    other bytes are kept. *)
Definition upperLetter (c : ascii) : ascii :=
  match index 0 (String c EmptyString) "abcdefghijklmnopqrstuvwxyz" with
  | Some i =>
      match String.get i "ABCDEFGHIJKLMNOPQRSTUVWXYZ" with
      | Some C => C
      | None => c
      end
  | None => c
  end.

Fixpoint asciiUpper (s : string) : string :=
  match s with
  | EmptyString => EmptyString
  | String c s' => String (upperLetter c) (asciiUpper s')
  end.

Fixpoint isAsciiText (s : string) : bool :=
  match s with
  | EmptyString => true
  | String c s' => Js.isASCII c && isAsciiText s'
  end.

(** A run of [k] padding characters, and the last character of a text. *)
Fixpoint padding (k : nat) : string :=
  match k with
  | O => EmptyString
  | S k' => String "=" (padding k')
  end.

Fixpoint lastChar (s : string) : option ascii :=
  match s with
  | EmptyString => None
  | String c EmptyString => Some c
  | String _ s' => lastChar s'
  end.

(** What [toUint8Array] writes for an integer [c]. *)
Definition counterBytes (c : Z) : list byte :=
  Js.setBigUint64 (repeat (byte.of_Z 0) 8) 0 c.

(** The unsigned integer that a byte sequence encodes, big-endian. *)
Definition bigEndianValue (bytes : list byte) : Z :=
  fold_left (fun acc b => acc * 256 + byte.unsigned b) bytes 0.

(** Decimal text: the characters 0-9, and the number they write. *)
Definition isDecimalDigit (c : ascii) : bool :=
  ((48 <=? nat_of_ascii c) && (nat_of_ascii c <=? 57))%nat.

Fixpoint allDecimal (s : string) : bool :=
  match s with
  | EmptyString => true
  | String c s' => isDecimalDigit c && allDecimal s'
  end.

Fixpoint decimalValueFrom (acc : Z) (s : string) : Z :=
  match s with
  | EmptyString => acc
  | String c s' => decimalValueFrom (acc * 10 + (Z.of_nat (nat_of_ascii c) - 48)) s'
  end.

Definition decimalValue (s : string) : Z := decimalValueFrom 0 s.

(** A stand-in for the HMAC provider in the worked examples: the right
    output length for each hash, bytes mixed from key and data.  It is not
    a MAC. *)
Definition exampleHMAC (hash : HashAlgorithm) (key data : list byte) : list byte :=
  let len := match hash with SHA1 => 20 | SHA256 => 32 | SHA512 => 64 end%nat in
  let sum l := fold_left (fun acc b => acc * 31 + byte.unsigned b) l 7 in
  map (fun i => byte.of_Z (sum key + (sum data + 1) * (Z.of_nat i + 3))) (seq 0 len).

(** A stand-in for the Unicode case table in the worked examples: the
    four entries U+017F to S, U+0131 to I, U+00DF to SS and U+FB01 to FI, read
    from well-formed UTF-8; every other character is kept. *)
Definition utf8Length (lead : ascii) : nat :=
  let n := nat_of_ascii lead in
  if (n <? 224)%nat then 2%nat else if (n <? 240)%nat then 3%nat else 4%nat.

Definition exampleUpperChar (char : string) : string :=
  if (char =? String (ascii_of_nat 197) (String (ascii_of_nat 191) EmptyString))%string then "S"
  else if (char =? String (ascii_of_nat 196) (String (ascii_of_nat 177) EmptyString))%string
  then "I"
  else if (char =? String (ascii_of_nat 195) (String (ascii_of_nat 159) EmptyString))%string
  then "SS"
  else if (char =? String (ascii_of_nat 239)
                     (String (ascii_of_nat 172) (String (ascii_of_nat 129) EmptyString)))%string
  then "FI"
  else char.

Fixpoint exampleUpper_from (fuel : nat) (run : string) : string :=
  match fuel, run with
  | S fuel', String lead _ =>
      let n := utf8Length lead in
      (exampleUpperChar (String.substring 0 n run)
       ++ exampleUpper_from fuel' (String.substring n (String.length run - n) run))%string
  | _, _ => EmptyString
  end.

Definition exampleUpper (run : string) : string :=
  exampleUpper_from (String.length run) run.

(** The inputs of the worked examples: the secret "MZXW6YTB" is the
    Base32 text of the five bytes of "fooba". *)
Definition exampleKey : list byte := map byte.of_Z [102; 111; 111; 98; 97].

Definition exampleOptions : TOTPOptions :=
  {| timeStep := Some 30;
     digits := Some 6%nat;
     timestamp := Some 59000;
     algorithm := Some SHA1;
     window := Some 1 |}.

(** The same call with a negative time step and a negative window. *)
Definition negativeOptions : TOTPOptions :=
  {| timeStep := Some (-30);
     digits := Some 6%nat;
     timestamp := Some 59000;
     algorithm := Some SHA1;
     window := Some (-1) |}.

(** A call at the epoch: the base counter is 0. *)
Definition epochOptions : TOTPOptions :=
  {| timeStep := Some 30;
     digits := Some 6%nat;
     timestamp := Some 0;
     algorithm := Some SHA1;
     window := Some 1 |}.

Definition exampleURIOptions : TOTPURIOptions :=
  {| accountName := "info@rabbit-company.com";
     issuer := "Rabbit Company";
     secret := "MZXW6YTB";
     uri_digits := Some 8;
     period := Some 60;
     uri_algorithm := Some SHA256 |}.

(** The example call without a timestamp: the clock of the call counts. *)
Definition clockOptions : TOTPOptions :=
  {| timeStep := Some 30;
     digits := Some 6%nat;
     timestamp := None;
     algorithm := Some SHA1;
     window := Some 1 |}.

(** The options of a call that differs only in its [timestamp]. *)
Definition withTimestamp (o : TOTPOptions) (t : Z) : TOTPOptions :=
  {| timeStep := timeStep o;
     digits := digits o;
     timestamp := Some t;
     algorithm := algorithm o;
     window := window o |}.

(** How many times a character occurs in a text. *)
Fixpoint countChar (c : ascii) (s : string) : nat :=
  match s with
  | EmptyString => 0%nat
  | String x s' => ((if (x =? c)%char then 1 else 0) + countChar c s')%nat
  end.

(** The characters a provisioning URI is made of: letters, digits, the
    marks that [encodeURIComponent] keeps, and % + : / ? = &. *)
Definition uriChar (c : ascii) : bool := Js.isAlnum c || Js.mem c "-_.!~*'()%+:/?=&".

Fixpoint allUriChars (s : string) : bool :=
  match s with
  | EmptyString => true
  | String c s' => uriChar c && allUriChars s'
  end.

(** The characters that neither encoder lets through as a separator:
    the output of [encodeURIComponent] and of the form encoder. *)
Definition encodedChar (c : ascii) : bool := Js.isAlnum c || Js.mem c "-_.!~*'()%+".

Fixpoint allEncodedChars (s : string) : bool :=
  match s with
  | EmptyString => true
  | String c s' => encodedChar c && allEncodedChars s'
  end.

(** The 256 byte values. *)
Definition allBytes : list byte := map (fun i => byte.of_Z (Z.of_nat i)) (seq 0 256).

(** A run of [n] zeros. *)
Fixpoint zeros (n : nat) : string :=
  match n with
  | O => EmptyString
  | S n' => String "0" (zeros n')
  end.

(** * Properties *)

(** ** Promises *)

Lemma await_resolve {A B : Type} (a : A) (k : A -> Promise B) :
  await (resolve a) k = k a.
Proof. unfold await, resolve; simpl. now destruct (k a). Qed.

Lemma await_sync_return {A B : Type} (a : A) (k : A -> Promise B) :
  await (sync (Return a)) k = k a.
Proof. apply await_resolve. Qed.

Lemma await_sync_throw {A B : Type} (e : exn) (k : A -> Promise B) :
  await (sync (Throw e)) k = reject e.
Proof. reflexivity. Qed.

(** ** The counter *)

Lemma floor_div_1000_Zdiv (a b : Z) :
  b <> 0 -> Js.floor_div_1000 a b = Js.Int (a / (1000 * b)).
Proof.
  intros Hb. unfold Js.floor_div_1000.
  destruct (Z.eqb_spec b 0) as [E | _]; [contradiction |].
  f_equal.
  destruct b as [| p | p]; [contradiction | |];
    unfold Qdiv, Qinv, Qmult, inject_Z, Qfloor; cbn [Qnum Qden];
    rewrite !Z.mul_1_r, Pos.mul_1_l.
  - reflexivity.
  - change (Z.pos (1000 * p)) with (- (1000 * Z.neg p)).
    replace (a * -1) with (- a) by lia.
    apply Z.div_opp_opp. lia.
Qed.

(** ** Integer intervals *)

Lemma interval_cons (a b : Z) : a <= b -> interval a b = a :: interval (a + 1) b.
Proof.
  intros H. unfold interval.
  replace (Z.to_nat (b + 1 - a)) with (S (Z.to_nat (b + 1 - (a + 1)))) by lia.
  cbn [seq map]. f_equal; [lia |].
  rewrite <- seq_shift, map_map.
  apply map_ext. intros i. lia.
Qed.

Lemma interval_nil (a b : Z) : b < a -> interval a b = [].
Proof.
  intros H. unfold interval.
  replace (Z.to_nat (b + 1 - a)) with 0%nat by lia. reflexivity.
Qed.

Lemma interval_single (a : Z) : interval a a = [a].
Proof. rewrite interval_cons by lia. rewrite interval_nil by lia. reflexivity. Qed.

Lemma In_interval (a b k : Z) : In k (interval a b) <-> a <= k <= b.
Proof.
  unfold interval. rewrite in_map_iff. split.
  - intros (i & <- & Hi). apply in_seq in Hi. lia.
  - intros H. exists (Z.to_nat (k - a)). split; [lia |].
    apply in_seq. lia.
Qed.

(** ** 32-bit operators on small operands *)

Lemma ToInt32_small (z : Z) : 0 <= z < 2 ^ 31 -> Js.ToInt32 z = z.
Proof.
  intros H. unfold Js.ToInt32.
  rewrite Z.mod_small by lia.
  destruct (Z.leb_spec (2 ^ 31) z); [lia | reflexivity].
Qed.

Lemma lor_range (n x y : Z) :
  0 <= n -> 0 <= x < 2 ^ n -> 0 <= y < 2 ^ n -> 0 <= Z.lor x y < 2 ^ n.
Proof.
  intros Hn Hx Hy.
  assert (Hnn : 0 <= Z.lor x y) by (apply Z.lor_nonneg; lia).
  split; [assumption |].
  destruct (Z.eq_dec (Z.lor x y) 0) as [-> | Hnz]; [lia |].
  apply Z.log2_lt_pow2; [lia |].
  rewrite Z.log2_lor by lia.
  assert (Hlog : forall v, 0 <= v < 2 ^ n -> Z.lor x y <> 0 -> 0 < n -> Z.log2 v < n).
  { intros v Hv _ Hpos. destruct (Z.eq_dec v 0) as [-> | Hv0]; [cbn; lia |].
    apply Z.log2_lt_pow2; lia. }
  assert (0 < n).
  { destruct (Z.eq_dec n 0) as [-> | ]; [| lia].
    change (2 ^ 0) with 1 in *.
    replace x with 0 in Hnz by lia. replace y with 0 in Hnz by lia.
    now cbn in Hnz. }
  apply Z.max_lub_lt; apply Hlog; auto.
Qed.

Lemma js_and_small (x m : Z) :
  0 <= x < 2 ^ 31 -> 0 <= m < 2 ^ 31 -> Js.and x m = Z.land x m.
Proof. intros Hx Hm. unfold Js.and. now rewrite !ToInt32_small. Qed.

Lemma js_or_small (x y : Z) :
  0 <= x < 2 ^ 31 -> 0 <= y < 2 ^ 31 -> Js.or x y = Z.lor x y.
Proof. intros Hx Hy. unfold Js.or. now rewrite !ToInt32_small. Qed.

Lemma js_shl_small (v n : Z) :
  0 <= n < 32 -> 0 <= v -> v * 2 ^ n < 2 ^ 31 -> Js.shl v n = Z.shiftl v n.
Proof.
  intros Hn Hv Hlt. unfold Js.shl.
  assert (v < 2 ^ 31) by (assert (0 < 2 ^ n) by (apply Z.pow_pos_nonneg; lia); nia).
  rewrite (ToInt32_small v) by lia.
  rewrite Z.mod_small by lia.
  rewrite Z.shiftl_mul_pow2 by lia.
  apply ToInt32_small. assert (0 < 2 ^ n) by (apply Z.pow_pos_nonneg; lia). nia.
Qed.

Lemma byteAt_range (mac : list byte) (i : Z) : 0 <= byteAt mac i < 256.
Proof. unfold byteAt. apply byte.unsigned_range. Qed.

Lemma elem_get (mac : list byte) (i : Z) :
  0 <= i < Z.of_nat (List.length mac) -> Js.elem (Js.get mac i) = byteAt mac i.
Proof.
  intros H. unfold Js.get, byteAt.
  destruct (Z.ltb_spec i 0); [lia |].
  rewrite (nth_error_nth' mac Byte.x00) by lia. reflexivity.
Qed.

Lemma land_mask (x k : Z) : 0 <= k -> Z.land x (2 ^ k - 1) = x mod 2 ^ k.
Proof.
  intros Hk. rewrite <- Z.land_ones by assumption.
  f_equal. rewrite Z.ones_equiv. lia.
Qed.

Lemma elem_range (v : option byte) : 0 <= Js.elem v < 256.
Proof.
  destruct v as [b |]; cbn; [apply byte.unsigned_range | lia].
Qed.

(** Packing four bytes with the 32-bit operators of the code never wraps. *)
Lemma js_pack (e0 e1 e2 e3 : Z) :
  0 <= e0 < 256 -> 0 <= e1 < 256 -> 0 <= e2 < 256 -> 0 <= e3 < 256 ->
  Js.or (Js.or (Js.or (Js.shl (Js.and e0 127) 24) (Js.shl (Js.and e1 255) 16))
               (Js.shl (Js.and e2 255) 8))
        (Js.and e3 255)
  = Z.lor (Z.lor (Z.lor (Z.shiftl (Z.land e0 127) 24) (Z.shiftl e1 16)) (Z.shiftl e2 8)) e3
  /\ 0 <= Z.lor (Z.lor (Z.lor (Z.shiftl (Z.land e0 127) 24) (Z.shiftl e1 16))
                       (Z.shiftl e2 8)) e3 < 2 ^ 31.
Proof.
  intros H0 H1 H2 H3.
  rewrite !js_and_small by lia.
  change 255 with (2 ^ 8 - 1). change 127 with (2 ^ 7 - 1).
  rewrite !land_mask by lia.
  rewrite !(Z.mod_small _ (2 ^ 8)) by lia.
  pose proof (Z.mod_pos_bound e0 (2 ^ 7) eq_refl) as Hm.
  set (b0 := e0 mod 2 ^ 7) in *.
  rewrite !js_shl_small by lia.
  assert (R0 : 0 <= Z.shiftl b0 24 < 2 ^ 31) by (rewrite Z.shiftl_mul_pow2; lia).
  assert (R1 : 0 <= Z.shiftl e1 16 < 2 ^ 31) by (rewrite Z.shiftl_mul_pow2; lia).
  assert (R2 : 0 <= Z.shiftl e2 8 < 2 ^ 31) by (rewrite Z.shiftl_mul_pow2; lia).
  pose proof (lor_range 31 _ _ ltac:(lia) R0 R1) as R01.
  pose proof (lor_range 31 _ _ ltac:(lia) R01 R2) as R012.
  rewrite (js_or_small (Z.shiftl b0 24)) by lia.
  rewrite (js_or_small (Z.lor (Z.shiftl b0 24) _)) by lia.
  rewrite js_or_small by lia.
  split; [reflexivity |].
  apply lor_range; lia.
Qed.

(** Whatever the MAC, [binary] is a non-negative 31-bit integer. *)
Lemma hotp_binary_range (mac : list byte) : 0 <= hotp_binary mac < 2 ^ 31.
Proof.
  unfold hotp_binary.
  destruct (js_pack (Js.elem (Js.get mac (hotp_offset mac)))
                    (Js.elem (Js.get mac (hotp_offset mac + 1)))
                    (Js.elem (Js.get mac (hotp_offset mac + 2)))
                    (Js.elem (Js.get mac (hotp_offset mac + 3))))
    as [-> Hr]; try apply elem_range.
  exact Hr.
Qed.

(** The truncation of a MAC of at least 19 bytes: the 32-bit operators of
    the code compute the unbounded formula on the bytes of the MAC. *)
Lemma hotp_binary_truncation (mac : list byte) :
  (19 <= List.length mac)%nat ->
  0 <= hotp_offset mac <= 15
  /\ hotp_offset mac = truncation_offset mac
  /\ hotp_binary mac = truncation_binary mac.
Proof.
  intros Hlen.
  assert (Hoff : hotp_offset mac = truncation_offset mac).
  { unfold hotp_offset, truncation_offset.
    rewrite elem_get by lia.
    pose proof (byteAt_range mac (Z.of_nat (List.length mac) - 1)).
    apply js_and_small; lia. }
  assert (Hrange : 0 <= truncation_offset mac <= 15).
  { unfold truncation_offset. change 15 with (2 ^ 4 - 1).
    rewrite land_mask by lia.
    pose proof (Z.mod_pos_bound (byteAt mac (Z.of_nat (List.length mac) - 1)) (2 ^ 4)).
    lia. }
  repeat split; try lia.
  unfold hotp_binary, truncation_binary. rewrite Hoff.
  set (o := truncation_offset mac) in *.
  rewrite !elem_get by lia.
  apply js_pack; apply byteAt_range.
Qed.

(** ** Decimal text *)

Lemma length_append (s1 s2 : string) :
  String.length (s1 ++ s2) = (String.length s1 + String.length s2)%nat.
Proof. induction s1 as [| c s1 IH]; cbn; [reflexivity | now rewrite IH]. Qed.

Lemma append_assoc (s1 s2 s3 : string) : ((s1 ++ s2) ++ s3 = s1 ++ (s2 ++ s3))%string.
Proof. induction s1 as [| c s1 IH]; cbn; [reflexivity | now rewrite IH]. Qed.

Lemma append_empty_r (s : string) : (s ++ "")%string = s.
Proof. induction s as [| c s IH]; cbn; [reflexivity | now rewrite IH]. Qed.

Lemma allDecimal_append (s1 s2 : string) :
  allDecimal (s1 ++ s2) = allDecimal s1 && allDecimal s2.
Proof.
  induction s1 as [| c s1 IH]; cbn; [reflexivity |].
  now rewrite IH, andb_assoc.
Qed.

Lemma decimalValueFrom_append (acc : Z) (s1 s2 : string) :
  decimalValueFrom acc (s1 ++ s2) = decimalValueFrom (decimalValueFrom acc s1) s2.
Proof. revert acc. induction s1 as [| c s1 IH]; intros acc; cbn; [reflexivity | apply IH]. Qed.

Lemma digitChar_decimal (v : Z) :
  0 <= v < 10 ->
  isDecimalDigit (Js.digitChar v) = true
  /\ Z.of_nat (nat_of_ascii (Js.digitChar v)) - 48 = v.
Proof.
  intros H.
  assert (E : v = 0 \/ v = 1 \/ v = 2 \/ v = 3 \/ v = 4 \/ v = 5 \/ v = 6 \/ v = 7
              \/ v = 8 \/ v = 9) by lia.
  repeat (destruct E as [-> | E]; [split; reflexivity |]).
  subst v. split; reflexivity.
Qed.

Lemma toDigits_append (fuel : nat) (radix n : Z) (acc : string) :
  Js.toDigits fuel radix n acc = (Js.toDigits fuel radix n "" ++ acc)%string.
Proof.
  revert n acc. induction fuel as [| fuel IH]; intros n acc; cbn; [reflexivity |].
  destruct (n / radix =? 0); [reflexivity |].
  rewrite IH. rewrite (IH _ (String _ EmptyString)).
  now rewrite append_assoc.
Qed.

(** With enough fuel, [toDigits] writes [n] in decimal, without leading
    zeros: at most [d] characters when [n < 10 ^ d]. *)
Lemma toDigits_decimal (fuel : nat) (n : Z) :
  0 <= n < 10 ^ Z.of_nat fuel ->
  allDecimal (Js.toDigits fuel 10 n "") = true
  /\ decimalValue (Js.toDigits fuel 10 n "") = n
  /\ forall d : nat, (1 <= d)%nat -> n < 10 ^ Z.of_nat d ->
       (String.length (Js.toDigits fuel 10 n "") <= d)%nat.
Proof.
  revert n. induction fuel as [| fuel IH]; intros n Hn.
  - cbn in Hn. assert (n = 0) by lia. subst n. cbn. repeat split; intros; lia.
  - cbn [Js.toDigits].
    pose proof (Z.mod_pos_bound n 10 eq_refl) as Hmod.
    destruct (digitChar_decimal (n mod 10) Hmod) as [Hdig Hval].
    pose proof (Z.div_mod n 10 ltac:(lia)) as Hdm.
    destruct (Z.eqb_spec (n / 10) 0) as [Hz | Hnz].
    + cbn. rewrite Hdig. unfold decimalValue; cbn. repeat split; try lia.
    + rewrite toDigits_append.
      assert (Hq : 0 <= n / 10 < 10 ^ Z.of_nat fuel).
      { split; [apply Z.div_pos; lia |].
        apply Z.div_lt_upper_bound; [lia |].
        rewrite Nat2Z.inj_succ, Z.pow_succ_r in Hn; lia. }
      destruct (IH _ Hq) as (Ha & Hv & Hl).
      rewrite allDecimal_append, Ha. cbn. rewrite Hdig.
      unfold decimalValue in *. rewrite decimalValueFrom_append, Hv. cbn.
      repeat split; try lia.
      intros d Hd Hlt. rewrite length_append. cbn.
      destruct d as [| [| d]]; [lia | |].
      * cbn in Hlt. assert (n / 10 = 0) by (apply Z.div_small; lia). lia.
      * assert (String.length (Js.toDigits fuel 10 (n / 10) "") <= S d)%nat; [| lia].
        apply Hl; [lia |].
        apply Z.div_lt_upper_bound; [lia |].
        rewrite (Nat2Z.inj_succ (S d)), Z.pow_succ_r in Hlt; lia.
Qed.

(** The fuel that [toString] gives [toDigits] is enough. *)
Lemma toString_fuel (n : Z) :
  0 <= n -> n < 10 ^ Z.of_nat (S (Z.to_nat (Z.log2 n))).
Proof.
  intros Hn.
  destruct (Z.eq_dec n 0) as [-> | Hnz]; [reflexivity |].
  rewrite Nat2Z.inj_succ, Z2Nat.id by apply Z.log2_nonneg.
  destruct (Z.log2_spec n ltac:(lia)) as [_ Hlt].
  eapply Z.lt_le_trans; [exact Hlt |].
  apply Z.pow_le_mono_l. lia.
Qed.

Lemma toString_decimal (n : Z) :
  0 <= n ->
  allDecimal (Js.toString 10 n) = true
  /\ decimalValue (Js.toString 10 n) = n
  /\ forall d : nat, (1 <= d)%nat -> n < 10 ^ Z.of_nat d ->
       (String.length (Js.toString 10 n) <= d)%nat.
Proof.
  intros Hn. unfold Js.toString.
  destruct (Z.ltb_spec n 0); [lia |].
  apply toDigits_decimal.
  rewrite Z.abs_eq by lia. split; [lia | now apply toString_fuel].
Qed.

Lemma filler_zero (fuel n : nat) :
  (n <= fuel)%nat ->
  String.length (Js.filler fuel n "0") = n
  /\ allDecimal (Js.filler fuel n "0") = true
  /\ decimalValue (Js.filler fuel n "0") = 0.
Proof.
  revert n. induction fuel as [| fuel IH]; intros n Hn.
  - assert (n = 0%nat) by lia. subst. repeat split.
  - cbn [Js.filler String.length].
    destruct (Nat.leb_spec n 1) as [Hle | Hgt].
    + destruct n as [| [| n]]; [repeat split .. | lia].
    + destruct (IH (n - 1)%nat ltac:(lia)) as (Hl & Ha & Hv).
      cbn [append]. cbn [String.length allDecimal].
      unfold decimalValue in *. cbn [decimalValueFrom].
      change (0 * 10 + (Z.of_nat (nat_of_ascii "0") - 48)) with 0.
      change (isDecimalDigit "0") with true.
      rewrite Hl, Ha, Hv. repeat split. lia.
Qed.

(** [padStart] with "0" up to a length the text does not exceed. *)
Lemma padStart_zero (s : string) (d : nat) :
  (String.length s <= d)%nat ->
  String.length (Js.padStart s d "0") = d
  /\ allDecimal (Js.padStart s d "0") = allDecimal s
  /\ decimalValue (Js.padStart s d "0") = decimalValue s.
Proof.
  intros Hlen. unfold Js.padStart.
  destruct (Nat.leb_spec d (String.length s)) as [Hle | Hgt].
  - repeat split. lia.
  - cbn [String.length Nat.eqb].
    destruct (filler_zero (d - String.length s) (d - String.length s) (le_n _))
      as (Hl & Ha & Hv).
    rewrite length_append, allDecimal_append, Hl, Ha.
    unfold decimalValue in *. rewrite decimalValueFrom_append, Hv.
    repeat split. lia.
Qed.

(** The last two lines of [hotp], for a [binary] that is not negative. *)
Lemma hotp_code_decimal (binary : Z) (d : nat) :
  0 <= binary -> (1 <= d)%nat ->
  String.length (hotp_code binary d) = d
  /\ allDecimal (hotp_code binary d) = true
  /\ decimalValue (hotp_code binary d) = binary mod 10 ^ Z.of_nat d.
Proof.
  intros Hb Hd. unfold hotp_code.
  assert (Hpow : 0 < 10 ^ Z.of_nat d) by (apply Z.pow_pos_nonneg; lia).
  rewrite Z.rem_mod_nonneg by lia.
  pose proof (Z.mod_pos_bound binary _ Hpow) as Hm.
  destruct (toString_decimal (binary mod 10 ^ Z.of_nat d) ltac:(lia)) as (Ha & Hv & Hl).
  destruct (padStart_zero (Js.toString 10 (binary mod 10 ^ Z.of_nat d)) d
              ltac:(apply Hl; lia)) as (Hl' & Ha' & Hv').
  rewrite Hl', Ha', Hv', Ha, Hv. repeat split.
Qed.

(** ** Base32 decoding *)

(** One character of the first loop: its index in the alphabet is its
    Base32 value, and the 5 characters added to [bits] are its 5 bits. *)
Lemma base32_char (c : ascii) :
  match base32Value c with
  | Some v =>
      Js.indexOf alphabet (String c EmptyString) = v
      /\ Js.padStart (Js.toString 2 v) 5 "0" = bitString (bits5 v)
  | None => Js.indexOf alphabet (String c EmptyString) = -1
  end.
Proof.
  destruct c as [b0 b1 b2 b3 b4 b5 b6 b7].
  destruct b0, b1, b2, b3, b4, b5, b6, b7; vm_compute; try split; reflexivity.
Qed.

Lemma bitString_app (l1 l2 : list bool) :
  bitString (l1 ++ l2) = (bitString l1 ++ bitString l2)%string.
Proof. induction l1 as [| b l1 IH]; cbn; [reflexivity | now rewrite IH]. Qed.

Lemma bitString_length (l : list bool) : String.length (bitString l) = List.length l.
Proof. induction l as [| b l IH]; cbn; [reflexivity | now rewrite IH]. Qed.

(** The first loop: it throws when some character is outside the
    alphabet, and otherwise adds the bit stream of the text to [bits]. *)
Lemma base32Decode_bits_spec (input bits : string) :
  base32Decode_bits input bits
  = if allInAlphabet input
    then Return (bits ++ bitString (bitstream input))%string
    else Throw (Error "Invalid Base32 character in secret").
Proof.
  revert bits. induction input as [| c input IH]; intros bits.
  - cbn. now rewrite append_empty_r.
  - cbn [base32Decode_bits allInAlphabet bitstream]. unfold inAlphabet.
    pose proof (base32_char c) as Hc.
    destruct (base32Value c) as [v |] eqn:Hv.
    + destruct Hc as [Hidx Hbits]. rewrite Hidx.
      assert (Hv32 : v <> -1).
      { unfold base32Value in Hv.
        destruct ((65 <=? Z.of_nat (nat_of_ascii c)) && (Z.of_nat (nat_of_ascii c) <=? 90))
          eqn:E1; [injection Hv as <-; lia |].
        destruct ((50 <=? Z.of_nat (nat_of_ascii c)) && (Z.of_nat (nat_of_ascii c) <=? 55))
          eqn:E2; [injection Hv as <-; lia | discriminate]. }
      destruct (Z.eqb_spec v (-1)); [contradiction |].
      rewrite IH, Hbits. cbn [andb].
      destruct (allInAlphabet input); [| reflexivity].
      now rewrite bitString_app, append_assoc.
    + rewrite Hc. reflexivity.
Qed.

(** One turn of the second loop. *)
Lemma base32Decode_output_step (bits : string) (i : nat) (output : list (option Z)) :
  base32Decode_output bits i output
  = if (i + 8 <=? String.length bits)%nat
    then base32Decode_output bits (i + 8)
           (output ++ [Js.parseInt (Js.substring i (i + 8) bits) 2])
    else output.
Proof.
  rewrite base32Decode_output_equation_1.
  destruct (le_dec (i + 8) (String.length bits));
    [rewrite base32Decode_output_clause_1_equation_1
    | rewrite base32Decode_output_clause_1_equation_2];
    destruct (Nat.leb_spec (i + 8) (String.length bits)); try lia; reflexivity.
Qed.

Lemma substring_bitString (pre mid rest : list bool) :
  String.substring (List.length pre) (List.length mid) (bitString (pre ++ mid ++ rest))
  = bitString mid.
Proof.
  induction pre as [| b pre IH]; cbn [List.length app bitString String.substring].
  - revert rest. induction mid as [| b mid IHm]; intros rest; cbn.
    + now destruct (bitString rest).
    + now rewrite IHm.
  - exact IH.
Qed.

Lemma parseInt_byte (b7 b6 b5 b4 b3 b2 b1 b0 : bool) :
  Js.parseInt (bitString [b7; b6; b5; b4; b3; b2; b1; b0]) 2
  = Some (bitsValue [b7; b6; b5; b4; b3; b2; b1; b0]).
Proof. destruct b7, b6, b5, b4, b3, b2, b1, b0; reflexivity. Qed.

Lemma bytesOfBits_short (bits : list bool) :
  (List.length bits < 8)%nat -> bytesOfBits bits = [].
Proof.
  intros H.
  do 8 (destruct bits as [| ? bits]; [reflexivity |]).
  cbn in H. lia.
Qed.

(** The second loop on the text of a bit stream, started after [pre]: it
    appends the whole bytes of what follows. *)
Lemma base32Decode_output_spec (n : nat) :
  forall (bits pre : list bool) (output : list (option Z)),
    (List.length bits <= n)%nat ->
    map Js.ToUint8 (base32Decode_output (bitString (pre ++ bits)) (List.length pre) output)
    = map Js.ToUint8 output ++ bytesOfBits bits.
Proof.
  induction n as [| n IH]; intros bits pre output Hn.
  - destruct bits; [| cbn in Hn; lia].
    rewrite base32Decode_output_step, bitString_length, length_app. cbn [List.length].
    destruct (Nat.leb_spec (List.length pre + 8) (List.length pre + 0)); [lia |].
    cbn. now rewrite app_nil_r.
  - rewrite base32Decode_output_step, bitString_length, length_app.
    destruct (Nat.leb_spec (List.length pre + 8) (List.length pre + List.length bits))
      as [Hle | Hgt].
    + destruct bits as [| b7 [| b6 [| b5 [| b4 [| b3 [| b2 [| b1 [| b0 rest]]]]]]]];
        cbn in Hle; try lia.
      unfold Js.substring.
      replace (List.length pre + 8 - List.length pre)%nat
        with (List.length [b7; b6; b5; b4; b3; b2; b1; b0]) by (cbn; lia).
      change (b7 :: b6 :: b5 :: b4 :: b3 :: b2 :: b1 :: b0 :: rest)
        with ([b7; b6; b5; b4; b3; b2; b1; b0] ++ rest).
      rewrite substring_bitString, parseInt_byte.
      rewrite app_assoc.
      replace (List.length pre + 8)%nat
        with (List.length (pre ++ [b7; b6; b5; b4; b3; b2; b1; b0]))
        by (rewrite length_app; reflexivity).
      rewrite IH by (cbn in Hn; lia).
      rewrite map_app. cbn [map Js.ToUint8 app bytesOfBits].
      now rewrite <- app_assoc.
    + rewrite bytesOfBits_short by lia. now rewrite app_nil_r.
Qed.

(** [base32Decode] is the RFC 4648 decoder on the cleaned text. *)
Lemma base32Decode_spec (unicodeUpper : string -> string) (input : string) :
  let cleaned := Js.toUpperCase unicodeUpper (Js.replace_trailing_eq input) in
  base32Decode unicodeUpper input
  = if allInAlphabet cleaned
    then Return (bytesOfBits (bitstream cleaned))
    else Throw (Error "Invalid Base32 character in secret").
Proof.
  intros cleaned. unfold base32Decode. fold cleaned.
  rewrite base32Decode_bits_spec.
  destruct (allInAlphabet cleaned); [| reflexivity].
  f_equal. cbn [append].
  exact (base32Decode_output_spec _ (bitstream cleaned) [] [] (le_n _)).
Qed.

Lemma allInAlphabet_forall (s : string) :
  allInAlphabet s = true
  <-> forall c, In c (list_ascii_of_string s) -> base32Value c <> None.
Proof.
  induction s as [| a s IH]; cbn.
  - split; [intros _ c [] | reflexivity].
  - rewrite andb_true_iff, IH. unfold inAlphabet. split.
    + intros [Ha Hs] c [<- | Hc]; [destruct (base32Value a); congruence | auto].
    + intros H. split; [| intros c Hc; apply H; auto].
      specialize (H a (or_introl eq_refl)). now destruct (base32Value a).
Qed.

Lemma allInAlphabet_exists (s : string) :
  allInAlphabet s = false
  <-> exists c, In c (list_ascii_of_string s) /\ base32Value c = None.
Proof.
  induction s as [| a s IH]; cbn.
  - split; [discriminate | intros (c & [] & _)].
  - rewrite andb_false_iff, IH. unfold inAlphabet. split.
    + intros [Ha | (c & Hc & Hn)].
      * exists a. split; [auto | now destruct (base32Value a)].
      * exists c. auto.
    + intros (c & [<- | Hc] & Hn); [left; now rewrite Hn | right; eauto].
Qed.

(** [replace(/=+$/, "")] removes a run of "=" from the end, and all of it. *)
Lemma replace_trailing_eq_spec (s : string) :
  exists k, s = (Js.replace_trailing_eq s ++ padding k)%string
            /\ lastChar (Js.replace_trailing_eq s) <> Some "="%char.
Proof.
  induction s as [| c s (k & Hs & Hlast)]; [exists 0%nat; split; [reflexivity | discriminate] |].
  cbn [Js.replace_trailing_eq].
  destruct (Js.replace_trailing_eq s) as [| c' r] eqn:Hr.
  - destruct (Ascii.eqb_spec c "="%char) as [-> | Hne].
    + exists (S k). cbn in *. split; [now rewrite Hs at 1 | discriminate].
    + exists k. cbn in *. split; [now rewrite Hs at 1 | congruence].
  - exists k. split; [cbn; now rewrite Hs at 1 |].
    cbn [lastChar] in *. exact Hlast.
Qed.

(** *** Upper-casing *)

Lemma upper_upperLetter (c : ascii) : Js.upper c = upperLetter c.
Proof.
  destruct c as [b0 b1 b2 b3 b4 b5 b6 b7].
  destruct b0, b1, b2, b3, b4, b5, b6, b7; reflexivity.
Qed.

Lemma upper_nonascii (c : ascii) : Js.isASCII c = false -> Js.upper c = c.
Proof.
  destruct c as [b0 b1 b2 b3 b4 b5 b6 b7].
  destruct b0, b1, b2, b3, b4, b5, b6, b7; vm_compute; congruence.
Qed.

Lemma isASCII_upper (c : ascii) : Js.isASCII (Js.upper c) = Js.isASCII c.
Proof.
  destruct c as [b0 b1 b2 b3 b4 b5 b6 b7].
  destruct b0, b1, b2, b3, b4, b5, b6, b7; reflexivity.
Qed.

(** On ASCII text the case table is never consulted. *)
Lemma toUpperCase_ascii_text (unicodeUpper : string -> string) (s : string) :
  isAsciiText s = true -> Js.toUpperCase unicodeUpper s = asciiUpper s.
Proof.
  unfold Js.toUpperCase. induction s as [| c s IH]; [reflexivity |].
  cbn [isAsciiText Js.toUpperCase_from asciiUpper]. intros H.
  apply andb_true_iff in H as [Hc Hs].
  rewrite Hc, (IH Hs), upper_upperLetter. reflexivity.
Qed.

Lemma isAsciiText_replace_trailing_eq (s : string) :
  isAsciiText s = true -> isAsciiText (Js.replace_trailing_eq s) = true.
Proof.
  induction s as [| c s IH]; [reflexivity |].
  cbn [isAsciiText Js.replace_trailing_eq]. intros H.
  apply andb_true_iff in H as [Hc Hs]. specialize (IH Hs).
  destruct (Js.replace_trailing_eq s).
  - destruct (c =? "=")%char; cbn [isAsciiText]; [reflexivity | now rewrite Hc].
  - cbn [isAsciiText] in *. now rewrite Hc, IH.
Qed.

(** Texts that differ in the case of ASCII letters only have the same
    upper case, whatever the case table. *)
Lemma toUpperCase_from_asciiUpper (unicodeUpper : string -> string) (s1 : string) :
  forall s2 run,
    asciiUpper s1 = asciiUpper s2 ->
    Js.toUpperCase_from unicodeUpper run s1 = Js.toUpperCase_from unicodeUpper run s2.
Proof.
  induction s1 as [| c1 s1 IH]; intros [| c2 s2] run H; cbn in H; try discriminate;
    [reflexivity |].
  injection H as Hc Hs. rewrite <- !upper_upperLetter in Hc.
  cbn [Js.toUpperCase_from].
  assert (Ha : Js.isASCII c1 = Js.isASCII c2)
    by (rewrite <- (isASCII_upper c1), <- (isASCII_upper c2), Hc; reflexivity).
  rewrite <- Ha. destruct (Js.isASCII c1) eqn:E1.
  - now rewrite Hc, (IH s2 EmptyString Hs).
  - assert (E : c1 = c2).
    { rewrite <- (upper_nonascii c1 E1), Hc. apply upper_nonascii. congruence. }
    rewrite E. now apply IH.
Qed.

Lemma In_append_r (x : ascii) (s1 s2 : string) :
  In x (list_ascii_of_string s2) -> In x (list_ascii_of_string (s1 ++ s2)).
Proof. intros H. induction s1 as [| y s1 IH]; cbn; [exact H | right; exact IH]. Qed.

(** An ASCII character of the text shows in its upper case, upper-cased. *)
Lemma toUpperCase_from_In (unicodeUpper : string -> string) (c : ascii) (s : string) :
  Js.isASCII c = true ->
  In c (list_ascii_of_string s) ->
  forall run, In (Js.upper c) (list_ascii_of_string (Js.toUpperCase_from unicodeUpper run s)).
Proof.
  intros Hc. induction s as [| x s IH]; [contradiction |].
  cbn [list_ascii_of_string In Js.toUpperCase_from]. intros [-> | Hin] run.
  - rewrite Hc. apply In_append_r. left. reflexivity.
  - destruct (Js.isASCII x); [| now apply IH].
    apply In_append_r. right. now apply IH.
Qed.

(** C4. Base32 decoding: [base32Decode] removes the "=" that end the input
    and upper-cases what is left; on ASCII text that is a-z to A-Z, letter
    for letter.  It throws its Error exactly when one of the characters left
    is outside A-Z 2-7.  It returns exactly when all are inside, and then
    the bytes are those cut, 8 bits at a time from the front, from the stream
    of the characters' 5-bit values; the bits at the end that do not fill a
    byte are dropped.  This holds for every input and every Unicode case
    table. *)
Theorem base32Decode_correct (unicodeUpper : string -> string) (input : string) :
  let stripped := Js.replace_trailing_eq input in
  let cleaned := Js.toUpperCase unicodeUpper stripped in
  (exists k, input = (stripped ++ padding k)%string /\ lastChar stripped <> Some "="%char)
  /\ (isAsciiText input = true -> cleaned = asciiUpper stripped)
  /\ (base32Decode unicodeUpper input = Throw (Error "Invalid Base32 character in secret")
      <-> exists c, In c (list_ascii_of_string cleaned) /\ base32Value c = None)
  /\ (base32Decode unicodeUpper input = Return (bytesOfBits (bitstream cleaned))
      <-> forall c, In c (list_ascii_of_string cleaned) -> base32Value c <> None).
Proof.
  intros stripped cleaned.
  split; [apply replace_trailing_eq_spec |].
  split; [intros H; apply toUpperCase_ascii_text, isAsciiText_replace_trailing_eq, H |].
  rewrite <- allInAlphabet_exists, <- allInAlphabet_forall.
  pose proof (base32Decode_spec unicodeUpper input) as H. cbv zeta in H.
  fold stripped in H. fold cleaned in H. rewrite H.
  destruct (allInAlphabet cleaned); repeat split; try congruence; try discriminate.
Qed.

(** The example of the specification: "12345" contains "1", which is not
    in the alphabet. *)
Example base32Decode_rejects_12345 :
  base32Decode exampleUpper "12345" = Throw (Error "Invalid Base32 character in secret").
Proof. reflexivity. Qed.

Example base32Decode_rfc4648 :
  base32Decode exampleUpper "mzxw6ytb====" = Return (map byte.of_Z [102; 111; 111; 98; 97]).
Proof. reflexivity. Qed.

(** Eight times U+017F, which [toUpperCase] turns into "SSSSSSSS". *)
Example base32Decode_long_s :
  let long_s := String (ascii_of_nat 197) (String (ascii_of_nat 191) EmptyString) in
  base32Decode exampleUpper
    (long_s ++ long_s ++ long_s ++ long_s ++ long_s ++ long_s ++ long_s ++ long_s)
  = base32Decode exampleUpper "SSSSSSSS".
Proof. reflexivity. Qed.

(** ** The HOTP engine *)

Section Engine.

Variable HMAC : HashAlgorithm -> list byte -> list byte -> list byte.

(** A finite counter: one key import, one signature, and the code. *)
Lemma hotp_int (key : list byte) (c : Z) (d : nat) (a : HashAlgorithm) :
  key <> [] ->
  hotp HMAC key (Js.Int c) {| hotp_digits := Some d; hotp_algorithm := Some a |}
  = ([ImportKey a key;
      Sign {| key_hash := a; key_raw := key |}
           (Js.setBigUint64 (repeat (byte.of_Z 0) 8) 0 c)],
     Return (hotp_code (hotp_binary
               (HMAC a key (Js.setBigUint64 (repeat (byte.of_Z 0) 8) 0 c))) d)).
Proof. intros Hkey. destruct key; [contradiction | reflexivity]. Qed.

(** An empty key: the key import is refused and nothing is signed. *)
Lemma hotp_empty_key (counter : Js.number) (o : HOTPOptions) :
  hotp HMAC [] counter o
  = ([ImportKey (Js.default (hotp_algorithm o) SHA1) []], Throw DataError).
Proof. reflexivity. Qed.

(** A counter that is not finite: [BigInt] throws after the key import. *)
Lemma hotp_nonfinite (key : list byte) (o : HOTPOptions) :
  key <> [] ->
  hotp HMAC key Js.NonFinite o
  = ([ImportKey (Js.default (hotp_algorithm o) SHA1) key], Throw RangeError).
Proof. intros Hkey. destruct key; [contradiction | reflexivity]. Qed.

Lemma hotp_settles (key : list byte) (c : Z) (o : HOTPOptions) :
  key <> [] ->
  exists code, settled (hotp HMAC key (Js.Int c) o) = Return code.
Proof. intros Hkey. destruct key; [contradiction |]. eexists. reflexivity. Qed.

(** One turn of the loop of [verifyTOTP]. *)
Lemma verifyTOTP_loop_step token key counter w d a ew :
  verifyTOTP_loop HMAC token key counter w d a ew
  = if ew <=? w
    then otp <- hotp HMAC key (Js.add counter ew)
                  {| hotp_digits := Some d; hotp_algorithm := Some a |} ;;
         if (otp =? token)%string then resolve true
         else verifyTOTP_loop HMAC token key counter w d a (ew + 1)
    else resolve false.
Proof.
  rewrite verifyTOTP_loop_unfold_eq at 1.
  unfold verifyTOTP_loop_unfold.
  destruct (Z_le_dec ew w) as [H | H]; simpl;
    destruct (Z.leb_spec ew w); try lia; reflexivity.
Qed.

(** Inside the loop: from [ew <= w] on, the counters are tried one by
    one up to some [last]; every one before [last] fails to match, and
    the loop ends either on a match at [last] or after [last = w]. *)
Lemma verifyTOTP_loop_cases token key c w d a :
  key <> [] ->
  let try_at ew :=
    hotp HMAC key (Js.Int (c + ew)) {| hotp_digits := Some d; hotp_algorithm := Some a |} in
  forall (n : nat) (ew : Z),
    Z.to_nat (w + 1 - ew) = n -> ew <= w ->
    exists last,
      ew <= last <= w
      /\ (forall k, ew <= k < last -> settled (try_at k) <> Return token)
      /\ made (verifyTOTP_loop HMAC token key (Js.Int c) w d a ew)
         = flat_map (fun k => made (try_at k)) (interval ew last)
      /\ ((settled (try_at last) = Return token
           /\ settled (verifyTOTP_loop HMAC token key (Js.Int c) w d a ew) = Return true)
          \/ (last = w /\ settled (try_at last) <> Return token
              /\ settled (verifyTOTP_loop HMAC token key (Js.Int c) w d a ew) = Return false)).
Proof.
  intros Hkey try_at n. induction n as [| n IH]; intros ew Hn Hle; [lia |].
  rewrite verifyTOTP_loop_step.
  destruct (Z.leb_spec ew w) as [_ | Hgt]; [| lia].
  cbn [Js.add]. rewrite hotp_int by assumption.
  set (code := hotp_code _ _).
  assert (Htry : try_at ew = (made (try_at ew), Return code))
    by (unfold try_at; rewrite hotp_int by assumption; reflexivity).
  assert (Hcalls : made (try_at ew)
                   = [ImportKey a key;
                      Sign {| key_hash := a; key_raw := key |}
                           (Js.setBigUint64 (repeat (byte.of_Z 0) 8) 0 (c + ew))])
    by (unfold try_at; rewrite hotp_int by assumption; reflexivity).
  rewrite <- Hcalls.
  unfold await; cbn [fst snd].
  destruct (String.eqb_spec code token) as [Heq | Hne].
  - exists ew. repeat split; try lia.
    + rewrite interval_single. cbn. reflexivity.
    + left. split; [rewrite Htry; cbn; congruence | reflexivity].
  - destruct (Z.eq_dec ew w) as [-> | Hneq].
    + exists w. repeat split; try lia.
      * rewrite verifyTOTP_loop_step.
        destruct (Z.leb_spec (w + 1) w); [lia |].
        rewrite interval_single. cbn. reflexivity.
      * right. repeat split.
        -- rewrite Htry; cbn; congruence.
        -- rewrite verifyTOTP_loop_step.
           destruct (Z.leb_spec (w + 1) w); [lia | reflexivity].
    + destruct (IH (ew + 1)) as (last & Hl & Hbefore & Hmade & Hend); try lia.
      exists last. repeat split; try lia.
      * intros k Hk. destruct (Z.eq_dec k ew) as [-> | Hk'].
        -- rewrite Htry; cbn; congruence.
        -- apply Hbefore; lia.
      * rewrite (interval_cons ew last) by lia. cbn [flat_map].
        unfold made in *. rewrite Hmade. reflexivity.
      * unfold settled in *. exact Hend.
Qed.

Lemma toUint8Array_int (c : Z) : toUint8Array (Js.Int c) = Return (counterBytes c).
Proof. reflexivity. Qed.

Lemma counterBytes_value (c : Z) :
  List.length (counterBytes c) = 8%nat
  /\ bigEndianValue (counterBytes c) = c mod 2 ^ 64.
Proof.
  split; [reflexivity |].
  unfold counterBytes, Js.setBigUint64, Js.ToBigUint64, bigEndianValue.
  pose proof (Z.mod_pos_bound c (2 ^ 64) eq_refl) as Hr.
  set (raw := c mod 2 ^ 64) in *.
  cbn [firstn skipn repeat map app fold_left Nat.add].
  rewrite !byte.unsigned_of_Z. unfold byte.wrap.
  rewrite !Z.shiftr_div_pow2 by lia.
  assert (Hstep : forall k, 0 <= k ->
            raw / 2 ^ (k + 8) * 256 + (raw / 2 ^ k) mod 2 ^ 8 = raw / 2 ^ k).
  { intros k Hk. rewrite Z.pow_add_r, <- Z.div_div by lia.
    pose proof (Z.div_mod (raw / 2 ^ k) (2 ^ 8) ltac:(lia)). lia. }
  assert (Htop : (raw / 2 ^ (8 * (7 - 0))) mod 2 ^ 8 = raw / 2 ^ (48 + 8)).
  { apply Z.mod_small. split; [apply Z.div_pos; lia |].
    apply Z.div_lt_upper_bound; lia. }
  rewrite Z.mul_0_l, Z.add_0_l, Htop.
  change (8 * (7 - 1)) with 48. rewrite (Hstep 48) by lia.
  change 48 with (40 + 8) at 1. change (8 * (7 - 2)) with 40. rewrite (Hstep 40) by lia.
  change 40 with (32 + 8) at 1. change (8 * (7 - 3)) with 32. rewrite (Hstep 32) by lia.
  change 32 with (24 + 8) at 1. change (8 * (7 - 4)) with 24. rewrite (Hstep 24) by lia.
  change 24 with (16 + 8) at 1. change (8 * (7 - 5)) with 16. rewrite (Hstep 16) by lia.
  change 16 with (8 + 8) at 1. change (8 * (7 - 6)) with 8. rewrite (Hstep 8) by lia.
  change (2 ^ 8) with (2 ^ (0 + 8)) at 1. change (8 * (7 - 7)) with 0.
  rewrite (Hstep 0) by lia.
  apply Z.div_1_r.
Qed.

(** C2. Dynamic truncation: when the MAC that the provider returns has
    20, 32 or 64 bytes, the offset that [hotp] computes is
    mac[last] & 0x0F, the four bytes it reads lie inside the MAC, and the
    binary value is
    ((mac[offset] & 0x7F) << 24) | (mac[offset+1] << 16)
    | (mac[offset+2] << 8) | mac[offset+3]
    taken on unbounded integers; this value is at least 0 and below 2^31,
    and it is the one the code is cut from: whenever [hotp] settles with a
    code, which it does for every key that is not empty. *)
Theorem hotp_dynamic_truncation (key : list byte) (c : Z) (d : nat) (a : HashAlgorithm) :
  let mac := HMAC a key (counterBytes c) in
  (List.length mac = 20 \/ List.length mac = 32 \/ List.length mac = 64)%nat ->
  hotp_offset mac = truncation_offset mac
  /\ 0 <= truncation_offset mac
  /\ truncation_offset mac + 3 < Z.of_nat (List.length mac)
  /\ hotp_binary mac = truncation_binary mac
  /\ 0 <= truncation_binary mac < 2 ^ 31
  /\ (key <> [] ->
      settled (hotp HMAC key (Js.Int c) {| hotp_digits := Some d; hotp_algorithm := Some a |})
      = Return (hotp_code (truncation_binary mac) d))
  /\ (forall code,
        settled (hotp HMAC key (Js.Int c) {| hotp_digits := Some d; hotp_algorithm := Some a |})
        = Return code ->
        code = hotp_code (truncation_binary mac) d).
Proof.
  intros mac Hlen.
  destruct (hotp_binary_truncation mac ltac:(lia)) as (Hr & Ho & Hb).
  pose proof (hotp_binary_range mac) as Hrange.
  rewrite <- Ho, <- Hb. repeat split; try lia.
  - intros Hkey. now rewrite hotp_int.
  - intros code. destruct key as [| b key]; [rewrite hotp_empty_key; discriminate |].
    rewrite hotp_int by discriminate. cbn [settled snd]. intros [= <-]. reflexivity.
Qed.



(** The one message signed for an integer counter has 8 bytes and is
    worth counter mod 2^64, big-endian; nothing is thrown when the key is
    not empty, and nothing is signed when it is. *)
Lemma hotp_signs_counter (key : list byte) (c : Z) (d : nat) (a : HashAlgorithm) :
  (forall k data,
     In (Sign k data)
        (made (hotp HMAC key (Js.Int c) {| hotp_digits := Some d; hotp_algorithm := Some a |})) ->
     k = {| key_hash := a; key_raw := key |}
     /\ List.length data = 8%nat
     /\ bigEndianValue data = c mod 2 ^ 64)
  /\ (key <> [] ->
      exists data code,
        hotp HMAC key (Js.Int c) {| hotp_digits := Some d; hotp_algorithm := Some a |}
        = ([ImportKey a key; Sign {| key_hash := a; key_raw := key |} data], Return code)
        /\ List.length data = 8%nat
        /\ bigEndianValue data = c mod 2 ^ 64).
Proof.
  split.
  - intros k data. destruct key as [| b key].
    + rewrite hotp_empty_key. cbn. intros [H | []]. discriminate H.
    + rewrite hotp_int by discriminate. cbn.
      intros [H | [H | []]]; [discriminate H |].
      pose proof (f_equal (fun x => match x with Sign k' _ => Some k' | _ => None end) H)
        as Hk.
      pose proof (f_equal (fun x => match x with Sign _ d' => d' | _ => [] end) H) as Hd.
      cbv beta iota in Hk, Hd. fold (counterBytes c) in Hd.
      rewrite <- Hd. split; [congruence | apply counterBytes_value].
  - intros Hkey. exists (counterBytes c). eexists. rewrite hotp_int by assumption.
    split; [reflexivity | apply counterBytes_value].
Qed.

End Engine.

(** ** Verification *)

Section Verification.

Variable unicodeUpper : string -> string.
Variable HMAC : HashAlgorithm -> list byte -> list byte -> list byte.

(** [verifyTOTP] on a secret that decodes and a non-zero time step runs
    the loop from [- window] over the base counter. *)
Lemma verifyTOTP_runs_loop now token secret opts key :
  base32Decode unicodeUpper secret = Return key ->
  Js.default (timeStep opts) 30 <> 0 ->
  verifyTOTP unicodeUpper HMAC now token secret opts
  = verifyTOTP_loop HMAC token key (Js.Int (baseCounter now opts))
      (Js.default (window opts) 1) (Js.default (digits opts) 6%nat)
      (Js.default (algorithm opts) SHA1) (- Js.default (window opts) 1).
Proof.
  intros Hkey Hstep. unfold verifyTOTP.
  rewrite Hkey, await_sync_return, floor_div_1000_Zdiv by assumption.
  reflexivity.
Qed.

Lemma generateTOTP_runs_hotp now secret opts key :
  base32Decode unicodeUpper secret = Return key ->
  Js.default (timeStep opts) 30 <> 0 ->
  generateTOTP unicodeUpper HMAC now secret opts
  = hotp HMAC key (Js.Int (baseCounter now opts)) (hotpOptions opts).
Proof.
  intros Hkey Hstep. unfold generateTOTP.
  rewrite Hkey, await_sync_return, floor_div_1000_Zdiv by assumption.
  reflexivity.
Qed.

(** The whole of the window search, shared by the statements below. *)
Lemma verifyTOTP_cases now token secret opts key :
  let w := Js.default (window opts) 1 in
  let try_at ew := hotp HMAC key (Js.Int (baseCounter now opts + ew)) (hotpOptions opts) in
  base32Decode unicodeUpper secret = Return key ->
  key <> [] ->
  Js.default (timeStep opts) 30 <> 0 ->
  0 <= w ->
  exists (verdict : bool) (last : Z),
    settled (verifyTOTP unicodeUpper HMAC now token secret opts) = Return verdict
    /\ (verdict = true <->
        exists ew, - w <= ew <= w /\ settled (try_at ew) = Return token)
    /\ - w <= last <= w
    /\ made (verifyTOTP unicodeUpper HMAC now token secret opts)
       = flat_map (fun ew => made (try_at ew)) (interval (- w) last)
    /\ (forall ew, - w <= ew < last -> settled (try_at ew) <> Return token)
    /\ (if verdict then settled (try_at last) = Return token else last = w).
Proof.
  intros w try_at Hkey Hne Hstep Hw.
  rewrite (verifyTOTP_runs_loop now token secret opts key Hkey Hstep).
  fold w.
  destruct (verifyTOTP_loop_cases HMAC token key (baseCounter now opts) w
              (Js.default (digits opts) 6%nat) (Js.default (algorithm opts) SHA1) Hne
              (Z.to_nat (w + 1 - - w)) (- w) eq_refl ltac:(lia))
    as (last & Hl & Hbefore & Hmade & Hend).
  fold (hotpOptions opts) in Hbefore, Hmade, Hend. fold try_at in Hbefore, Hmade, Hend.
  destruct Hend as [[Hhit Hret] | (-> & Hmiss & Hret)].
  - exists true, last. repeat split; try assumption; try lia.
    intros _. exists last. split; [lia | assumption].
  - exists false, w. repeat split; try assumption; try lia; try discriminate.
    intros (ew & Hew & Hm). exfalso.
    destruct (Z.eq_dec ew w) as [-> | Hneq]; [exact (Hmiss Hm) |].
    apply (Hbefore ew); [lia | assumption].
Qed.

(** C3, as the code has it.  Window search: for a secret that decodes to
    a key of at least one byte, a time step that is not zero and a
    window >= 0, [verifyTOTP] takes the base counter
    floor(timestamp / 1000 / timeStep) and settles with a boolean that is
    true exactly when the HOTP code at counter + errorWindow is the token
    (equal as strings) for some errorWindow in [-window, +window].  The
    provider calls it makes are those of the HOTP computations for
    errorWindow = -window, -window + 1, ..., last, in that order, where no
    errorWindow before [last] matches and [last] is the first match, or
    [window] when nothing matches. *)
Theorem verifyTOTP_window_search now token secret opts key :
  let w := Js.default (window opts) 1 in
  let try_at ew := hotp HMAC key (Js.Int (baseCounter now opts + ew)) (hotpOptions opts) in
  base32Decode unicodeUpper secret = Return key ->
  key <> [] ->
  Js.default (timeStep opts) 30 <> 0 ->
  0 <= w ->
  exists (verdict : bool) (last : Z),
    settled (verifyTOTP unicodeUpper HMAC now token secret opts) = Return verdict
    /\ (verdict = true <->
        exists ew, - w <= ew <= w /\ settled (try_at ew) = Return token)
    /\ - w <= last <= w
    /\ made (verifyTOTP unicodeUpper HMAC now token secret opts)
       = flat_map (fun ew => made (try_at ew)) (interval (- w) last)
    /\ (forall ew, - w <= ew < last -> settled (try_at ew) <> Return token)
    /\ (if verdict then settled (try_at last) = Return token else last = w).
Proof. exact (verifyTOTP_cases now token secret opts key). Qed.

(** C1, as the code has it.  Round trip: for a secret that decodes to a
    key of at least one byte, digits >= 1, timeStep >= 1, any timestamp and
    algorithm and any window >= 0, [generateTOTP] settles with a code, and
    [verifyTOTP] on that code, with the same options and that window,
    settles with true.  ([now1] and [now2] are the clock readings of the two
    calls; they matter only when the options carry no timestamp.) *)
Theorem verifyTOTP_generateTOTP_roundtrip now1 now2 secret opts w key :
  base32Decode unicodeUpper secret = Return key ->
  key <> [] ->
  (1 <= Js.default (digits opts) 6)%nat ->
  1 <= Js.default (timeStep opts) 30 ->
  0 <= Js.default w 1 ->
  (timestamp opts = None -> now1 = now2) ->
  exists code,
    settled (generateTOTP unicodeUpper HMAC now1 secret opts) = Return code
    /\ settled (verifyTOTP unicodeUpper HMAC now2 code secret (withWindow opts w))
       = Return true.
Proof.
  intros Hkey Hne _ Hstep Hw Hnow.
  assert (Hc : baseCounter now2 (withWindow opts w) = baseCounter now1 opts).
  { unfold baseCounter, withWindow; cbn.
    destruct (timestamp opts); [reflexivity | now rewrite Hnow]. }
  rewrite (generateTOTP_runs_hotp now1 secret opts key Hkey) by lia.
  destruct (hotp_settles HMAC key (baseCounter now1 opts) (hotpOptions opts) Hne)
    as (code & Hcode).
  exists code. split; [assumption |].
  destruct (verifyTOTP_cases now2 code secret (withWindow opts w) key Hkey Hne)
    as (verdict & last & Hret & Hiff & _); [cbn; lia | cbn; lia |].
  rewrite Hret. f_equal. apply Hiff.
  exists 0. split; [cbn; lia |].
  rewrite Hc, Z.add_0_r. exact Hcode.
Qed.

(** With a negative window the loop body never runs. *)
Lemma verifyTOTP_empty_window now token secret opts key :
  base32Decode unicodeUpper secret = Return key ->
  Js.default (window opts) 1 < 0 ->
  verifyTOTP unicodeUpper HMAC now token secret opts = ([], Return false).
Proof.
  intros Hkey Hw. unfold verifyTOTP.
  rewrite Hkey, await_sync_return, verifyTOTP_loop_step.
  destruct (Z.leb_spec (- Js.default (window opts) 1) (Js.default (window opts) 1));
    [lia | reflexivity].
Qed.

(** C9. A negative window: for a secret that decodes, [verifyTOTP] with
    window < 0 settles with false, throws nothing and makes no call to the
    provider at all: the loop body never runs. *)
Theorem verifyTOTP_negative_window now token secret opts key :
  base32Decode unicodeUpper secret = Return key ->
  Js.default (window opts) 1 < 0 ->
  verifyTOTP unicodeUpper HMAC now token secret opts = ([], Return false).
Proof. exact (verifyTOTP_empty_window now token secret opts key). Qed.

(** C7, as the code has it.  Nothing validates timeStep or window.  For a
    secret that decodes to a key of at least one byte and an integer
    timeStep < 0, [generateTOTP] settles with the HOTP code of the counter
    floor(timestamp / 1000 / timeStep) and [verifyTOTP] settles with a
    boolean; with an integer window < 0, [verifyTOTP] settles with false for
    every secret that decodes. *)
Theorem parameters_not_validated now token secret opts key :
  base32Decode unicodeUpper secret = Return key ->
  (key <> [] ->
   Js.default (timeStep opts) 30 < 0 ->
   (exists code,
      settled (generateTOTP unicodeUpper HMAC now secret opts) = Return code
      /\ settled (hotp HMAC key (Js.Int (baseCounter now opts)) (hotpOptions opts))
         = Return code)
   /\ exists verdict,
        settled (verifyTOTP unicodeUpper HMAC now token secret opts) = Return verdict)
  /\ (Js.default (window opts) 1 < 0 ->
      settled (verifyTOTP unicodeUpper HMAC now token secret opts) = Return false).
Proof.
  intros Hkey. split.
  - intros Hne Hstep. split.
    + rewrite (generateTOTP_runs_hotp now secret opts key Hkey) by lia.
      destruct (hotp_settles HMAC key (baseCounter now opts) (hotpOptions opts) Hne)
        as (code & Hcode).
      exists code. split; assumption.
    + destruct (Z_lt_le_dec (Js.default (window opts) 1) 0) as [Hneg | Hpos].
      * exists false. now rewrite (verifyTOTP_empty_window now token secret opts key).
      * destruct (verifyTOTP_cases now token secret opts key Hkey Hne ltac:(lia) Hpos)
          as (verdict & _ & Hret & _).
        exists verdict. exact Hret.
  - intros Hw. now rewrite (verifyTOTP_empty_window now token secret opts key).
Qed.

(** C10, as the code has it.  Counter encoding: for every integer
    counter, negative ones included, the message that [hotp] hands to the
    provider has 8 bytes and its big-endian value is counter mod 2^64; with
    a key that is not empty [hotp] throws nothing and signs exactly that one
    message.  [verifyTOTP] reaches negative counters: for a secret that
    decodes to a key of at least one byte, a time step that is not zero and
    a window >= 0, when the base counter is below the window it signs the
    message of base counter - window, a negative counter. *)
Theorem hotp_counter_message (key : list byte) (c : Z) (d : nat) (a : HashAlgorithm) :
  (forall k data,
     In (Sign k data)
        (made (hotp HMAC key (Js.Int c) {| hotp_digits := Some d; hotp_algorithm := Some a |})) ->
     k = {| key_hash := a; key_raw := key |}
     /\ List.length data = 8%nat
     /\ bigEndianValue data = c mod 2 ^ 64)
  /\ (key <> [] ->
      exists data code,
        hotp HMAC key (Js.Int c) {| hotp_digits := Some d; hotp_algorithm := Some a |}
        = ([ImportKey a key; Sign {| key_hash := a; key_raw := key |} data], Return code)
        /\ List.length data = 8%nat
        /\ bigEndianValue data = c mod 2 ^ 64)
  /\ forall now token secret opts,
       base32Decode unicodeUpper secret = Return key ->
       key <> [] ->
       Js.default (timeStep opts) 30 <> 0 ->
       0 <= Js.default (window opts) 1 ->
       baseCounter now opts < Js.default (window opts) 1 ->
       exists data,
         In (Sign {| key_hash := Js.default (algorithm opts) SHA1; key_raw := key |} data)
            (made (verifyTOTP unicodeUpper HMAC now token secret opts))
         /\ bigEndianValue data
            = (baseCounter now opts - Js.default (window opts) 1) mod 2 ^ 64
         /\ baseCounter now opts - Js.default (window opts) 1 < 0.
Proof.
  split; [apply hotp_signs_counter |]. split; [apply hotp_signs_counter |].
  intros now token secret opts Hkey Hne Hstep Hw Hlow.
  destruct (verifyTOTP_cases now token secret opts key Hkey Hne Hstep Hw)
    as (verdict & last & _ & _ & Hlast & Hmade & _).
  exists (counterBytes (baseCounter now opts + - Js.default (window opts) 1)).
  split; [| split; [| lia]].
  - rewrite Hmade, interval_cons by lia. cbn [flat_map].
    apply in_or_app. left. unfold hotpOptions. rewrite hotp_int by assumption.
    right. left. reflexivity.
  - replace (baseCounter now opts - Js.default (window opts) 1)
      with (baseCounter now opts + - Js.default (window opts) 1) by lia.
    apply counterBytes_value.
Qed.

End Verification.

(** ** Secret generation *)

Section Secret.

Variable entropy : nat -> byte.

(** One turn of the loop adds one character of the alphabet: the one at
    position byte mod 32. *)
Lemma secret_pick (b : byte) :
  exists c,
    Js.charAt alphabet (Z.rem (byte.unsigned b) (Z.of_nat (String.length alphabet)))
    = String c EmptyString
    /\ secretChar b = Some c
    /\ inAlphabet c = true.
Proof. destruct b; eexists; repeat split. Qed.

(** Up to 65536 bytes the provider fills the array; above it refuses. *)
Lemma generateTOTPSecret_filled (length : nat) :
  Z.of_nat length <= 65536 ->
  generateTOTPSecret entropy length
  = Return (generateTOTPSecret_loop (map entropy (seq 0 length)) length).
Proof.
  intros H. unfold generateTOTPSecret, getRandomValues. rewrite repeat_length.
  destruct (Z.ltb_spec 65536 (Z.of_nat length)); [lia | reflexivity].
Qed.

Lemma generateTOTPSecret_quota (length : nat) :
  65536 < Z.of_nat length ->
  generateTOTPSecret entropy length = Throw QuotaExceededError.
Proof.
  intros H. unfold generateTOTPSecret, getRandomValues. rewrite repeat_length.
  destruct (Z.ltb_spec 65536 (Z.of_nat length)); [reflexivity | lia].
Qed.

Lemma randomValues_get (length i : nat) :
  (i < length)%nat ->
  Js.get (map entropy (seq 0 length)) (Z.of_nat i) = Some (entropy i).
Proof.
  intros Hi. unfold Js.get.
  destruct (Z.ltb_spec (Z.of_nat i) 0); [lia |].
  rewrite Nat2Z.id.
  rewrite nth_error_map, nth_error_seq.
  destruct (Nat.ltb_spec i length); [reflexivity | lia].
Qed.

Lemma fold_left_ext_in {A B : Type} (f g : A -> B -> A) (l : list B) :
  (forall a x, In x l -> f a x = g a x) ->
  forall acc, fold_left f l acc = fold_left g l acc.
Proof.
  induction l as [| x l IH]; intros H acc; [reflexivity |].
  cbn. rewrite (H acc x (or_introl eq_refl)).
  apply IH. intros a y Hy. apply H. right. exact Hy.
Qed.

(** The loop over a filled array, one byte after the other. *)
Lemma generateTOTPSecret_fold (length : nat) :
  secretText entropy length
  = fold_left
      (fun secret i =>
         (secret ++ Js.charAt alphabet
                      (Z.rem (byte.unsigned (entropy i))
                             (Z.of_nat (String.length alphabet))))%string)
      (seq 0 length) "".
Proof.
  unfold secretText, generateTOTPSecret_loop.
  apply fold_left_ext_in. intros secret i Hi.
  apply in_seq in Hi. now rewrite randomValues_get by lia.
Qed.

Lemma generateTOTPSecret_succ (length : nat) :
  secretText entropy (S length)
  = (secretText entropy length
     ++ Js.charAt alphabet
          (Z.rem (byte.unsigned (entropy length)) (Z.of_nat (String.length alphabet))))%string.
Proof.
  rewrite !generateTOTPSecret_fold, seq_S, fold_left_app. reflexivity.
Qed.

Lemma allInAlphabet_append (s1 s2 : string) :
  allInAlphabet (s1 ++ s2) = allInAlphabet s1 && allInAlphabet s2.
Proof.
  induction s1 as [| c s1 IH]; cbn; [reflexivity |].
  now rewrite IH, andb_assoc.
Qed.

Lemma secretText_shape (length : nat) :
  String.length (secretText entropy length) = length
  /\ allInAlphabet (secretText entropy length) = true
  /\ forall i, (i < length)%nat ->
       String.get i (secretText entropy length) = secretChar (entropy i).
Proof.
  induction length as [| n (Hlen & Hall & Hget)].
  - repeat split. intros i Hi. lia.
  - rewrite generateTOTPSecret_succ.
    destruct (secret_pick (entropy n)) as (c & -> & Hc & Hin).
    rewrite length_append, allInAlphabet_append, Hlen, Hall.
    cbn [String.length allInAlphabet andb]. rewrite Hin.
    repeat split; [lia |].
    intros i Hi. destruct (Nat.eq_dec i n) as [E | Hne].
    + rewrite E, Hc.
      pose proof (append_correct2 (secretText entropy n) (String c "") 0) as H.
      rewrite Hlen in H. symmetry. exact H.
    + rewrite <- append_correct1 by lia. apply Hget. lia.
Qed.

(** What [generateTOTPSecret] does, for every length. *)
Lemma generateTOTPSecret_cases (length : nat) :
  (Z.of_nat length <= 65536 ->
   exists secret,
     generateTOTPSecret entropy length = Return secret
     /\ String.length secret = length
     /\ allInAlphabet secret = true
     /\ forall i, (i < length)%nat -> String.get i secret = secretChar (entropy i))
  /\ (65536 < Z.of_nat length ->
      exists e, generateTOTPSecret entropy length = Throw e).
Proof.
  split.
  - intros H. exists (secretText entropy length).
    split; [now apply generateTOTPSecret_filled | apply secretText_shape].
  - intros H. exists QuotaExceededError. now apply generateTOTPSecret_quota.
Qed.

(** Whatever [generateTOTPSecret] returns has the shape above. *)
Lemma generateTOTPSecret_returned (length : nat) (secret : string) :
  generateTOTPSecret entropy length = Return secret ->
  Z.of_nat length <= 65536 /\ secret = secretText entropy length.
Proof.
  intros H. destruct (Z_le_gt_dec (Z.of_nat length) 65536) as [Hle | Hgt].
  - rewrite generateTOTPSecret_filled in H by assumption.
    split; [assumption | now inversion H].
  - rewrite generateTOTPSecret_quota in H by lia. discriminate.
Qed.

(** C8, as the code has it.  Secret generation: for every length n up to
    65536 and every sequence of random bytes, [generateTOTPSecret] returns a
    text of exactly n characters, all of them in A-Z 2-7; the character at
    position i is the one at position (byte i) mod 32 of the alphabet.  For
    a length above 65536 no secret is returned: [generateTOTPSecret]
    throws, the random source refusing an array that long. *)
Theorem generateTOTPSecret_shape (length : nat) :
  (Z.of_nat length <= 65536 ->
   exists secret,
     generateTOTPSecret entropy length = Return secret
     /\ String.length secret = length
     /\ allInAlphabet secret = true
     /\ forall i, (i < length)%nat -> String.get i secret = secretChar (entropy i))
  /\ (65536 < Z.of_nat length ->
      exists e, generateTOTPSecret entropy length = Throw e).
Proof. exact (generateTOTPSecret_cases length). Qed.

End Secret.

(** ** The provisioning URI *)

Lemma formSafe_keeps (c : ascii) :
  formSafe c = true ->
  (if (c =? " ")%char then "+"
   else if Js.isAlnum c || Js.mem c "*-._" then String c EmptyString
   else Js.percent c) = String c EmptyString.
Proof.
  unfold formSafe. intros H. rewrite H.
  destruct (Ascii.eqb_spec c " "%char) as [-> | _]; [discriminate H | reflexivity].
Qed.

Lemma urlencode_safe (s : string) : allFormSafe s = true -> Js.urlencode s = s.
Proof.
  induction s as [| c s IH]; cbn [allFormSafe Js.urlencode]; [reflexivity |].
  intros H. apply andb_true_iff in H as [Hc Hs].
  now rewrite (formSafe_keeps c Hc), IH.
Qed.

Lemma decimal_formSafe (c : ascii) : isDecimalDigit c = true -> formSafe c = true.
Proof.
  destruct c as [b0 b1 b2 b3 b4 b5 b6 b7].
  destruct b0, b1, b2, b3, b4, b5, b6, b7; vm_compute; congruence.
Qed.

Lemma alphabet_formSafe (c : ascii) : inAlphabet c = true -> formSafe c = true.
Proof.
  destruct c as [b0 b1 b2 b3 b4 b5 b6 b7].
  destruct b0, b1, b2, b3, b4, b5, b6, b7; vm_compute; congruence.
Qed.

Lemma allDecimal_formSafe (s : string) : allDecimal s = true -> allFormSafe s = true.
Proof.
  induction s as [| c s IH]; cbn; [reflexivity |].
  intros H. apply andb_true_iff in H as [Hc Hs].
  now rewrite (decimal_formSafe c Hc), IH.
Qed.

Lemma allInAlphabet_formSafe (s : string) : allInAlphabet s = true -> allFormSafe s = true.
Proof.
  induction s as [| c s IH]; cbn; [reflexivity |].
  intros H. apply andb_true_iff in H as [Hc Hs].
  now rewrite (alphabet_formSafe c Hc), IH.
Qed.

(** The decimal text of an integer goes through form-urlencoding unchanged. *)
Lemma urlencode_toString (z : Z) : Js.urlencode (Js.toString 10 z) = Js.toString 10 z.
Proof.
  destruct (Z.ltb_spec z 0) as [Hneg | Hpos].
  - unfold Js.toString. destruct (Z.ltb_spec z 0); [| lia].
    rewrite Z.abs_neq by lia.
    destruct (toDigits_decimal (S (Z.to_nat (Z.log2 (- z)))) (- z)) as (Ha & _).
    { split; [lia | apply toString_fuel; lia]. }
    cbn [Js.urlencode]. rewrite (urlencode_safe _ (allDecimal_formSafe _ Ha)).
    reflexivity.
  - destruct (toString_decimal z Hpos) as (Ha & _).
    apply urlencode_safe, allDecimal_formSafe, Ha.
Qed.

(** What [generateTOTPURI] returns, part by part. *)
Lemma generateTOTPURI_parts (o : TOTPURIOptions) :
  generateTOTPURI o
  = ("otpauth://totp/" ++ Js.encodeURIComponent (issuer o ++ ":" ++ accountName o)
       ++ "?secret=" ++ Js.urlencode (secret o)
       ++ "&issuer=" ++ Js.urlencode (issuer o)
       ++ "&algorithm=" ++ uriAlgorithmName (Js.default (uri_algorithm o) SHA1)
       ++ "&digits=" ++ Js.toString 10 (Js.default (uri_digits o) 6)
       ++ "&period=" ++ Js.toString 10 (Js.default (period o) 30))%string.
Proof.
  unfold generateTOTPURI. cbn [Js.URLSearchParams_toString].
  rewrite !urlencode_toString.
  replace (Js.urlencode (Js.replace_hyphens (algorithmName (Js.default (uri_algorithm o) SHA1))))
    with (uriAlgorithmName (Js.default (uri_algorithm o) SHA1))
    by (now destruct (Js.default (uri_algorithm o) SHA1)).
  reflexivity.
Qed.

(** Form-urlencoding never shortens a text, and the only texts it keeps
    are those of letters, digits and * - . _ *)
Lemma urlencode_length (s : string) :
  (String.length s <= String.length (Js.urlencode s))%nat.
Proof.
  induction s as [| c s IH]; cbn [Js.urlencode]; [reflexivity |].
  rewrite length_append. cbn [String.length].
  destruct (c =? " ")%char; [cbn; lia |].
  destruct (Js.isAlnum c || Js.mem c "*-._"); cbn; lia.
Qed.

Lemma urlencode_fixed (s : string) : Js.urlencode s = s -> allFormSafe s = true.
Proof.
  induction s as [| c s IH]; cbn [Js.urlencode allFormSafe]; [reflexivity |].
  unfold formSafe. intros H.
  destruct (Ascii.eqb_spec c " "%char) as [-> | _].
  - cbn in H. discriminate H.
  - destruct (Js.isAlnum c || Js.mem c "*-._").
    + cbn [append] in H. injection H as H. now rewrite (IH H).
    + unfold Js.percent in H. cbn [append] in H. injection H as _ H.
      apply (f_equal String.length) in H. cbn [String.length] in H.
      pose proof (urlencode_length s). lia.
Qed.

Lemma append_cancel_l (p a b : string) : (p ++ a)%string = (p ++ b)%string -> a = b.
Proof.
  induction p as [| c p IH]; cbn [append]; [trivial |].
  intros H. injection H as H. exact (IH H).
Qed.

Lemma append_cancel_r (a b r : string) : (a ++ r)%string = (b ++ r)%string -> a = b.
Proof.
  revert b. induction a as [| c a IH]; intros [| c' b] H; cbn [append] in H.
  - reflexivity.
  - apply (f_equal String.length) in H. cbn [String.length] in H.
    rewrite length_append in H. lia.
  - apply (f_equal String.length) in H. cbn [String.length] in H.
    rewrite length_append in H. lia.
  - injection H as -> H. now rewrite (IH b H).
Qed.

(** The URI is the one of the specification exactly when the secret goes
    through form-urlencoding unchanged. *)
Lemma generateTOTPURI_claimed_iff (o : TOTPURIOptions) :
  generateTOTPURI o = claimedURI o <-> allFormSafe (secret o) = true.
Proof.
  rewrite generateTOTPURI_parts. unfold claimedURI. split.
  - intros H.
    apply append_cancel_l, append_cancel_l, append_cancel_l, append_cancel_r in H.
    now apply urlencode_fixed.
  - intros Hsafe. now rewrite (urlencode_safe _ Hsafe).
Qed.

(** C6, as the code has it.  [generateTOTPURI] returns "otpauth://totp/",
    the label issuer:accountName through [encodeURIComponent], "?", and the
    parameters secret, issuer, algorithm (SHA1, SHA256 or SHA512), digits and
    period in that order.  The secret is not validated, and like the issuer
    it is form-urlencoded; the URI is the one of the specification, the
    secret standing as it is, exactly when the secret only has letters,
    digits and * - . _ in it. *)
Theorem generateTOTPURI_format (o : TOTPURIOptions) :
  generateTOTPURI o
  = ("otpauth://totp/" ++ Js.encodeURIComponent (issuer o ++ ":" ++ accountName o)
       ++ "?secret=" ++ Js.urlencode (secret o)
       ++ "&issuer=" ++ Js.urlencode (issuer o)
       ++ "&algorithm=" ++ uriAlgorithmName (Js.default (uri_algorithm o) SHA1)
       ++ "&digits=" ++ Js.toString 10 (Js.default (uri_digits o) 6)
       ++ "&period=" ++ Js.toString 10 (Js.default (period o) 30))%string
  /\ (Js.urlencode (secret o) = secret o <-> allFormSafe (secret o) = true)
  /\ (generateTOTPURI o = claimedURI o <-> allFormSafe (secret o) = true).
Proof.
  split; [apply generateTOTPURI_parts |].
  split; [| apply generateTOTPURI_claimed_iff].
  split; [apply urlencode_fixed | apply urlencode_safe].
Qed.

(** A secret drawn from the Base32 alphabet is emitted as it is. *)
Corollary generateTOTPURI_base32_secret (o : TOTPURIOptions) :
  allInAlphabet (secret o) = true -> generateTOTPURI o = claimedURI o.
Proof.
  intros H. rewrite generateTOTPURI_parts, (urlencode_safe _ (allInAlphabet_formSafe _ H)).
  reflexivity.
Qed.

(** C6, as the specification has it, fails on a secret that carries its
    Base32 padding: "=" leaves as "%3D". *)
Lemma generateTOTPURI_secret_not_as_is :
  let o := {| accountName := "info@rabbit-company.com";
              issuer := "Rabbit Company";
              secret := "MZXW6YQ=";
              uri_digits := Some 6;
              period := Some 30;
              uri_algorithm := Some SHA1 |} in
  generateTOTPURI o
  = "otpauth://totp/Rabbit%20Company%3Ainfo%40rabbit-company.com?secret=MZXW6YQ%3D&issuer=Rabbit+Company&algorithm=SHA1&digits=6&period=30"
  /\ generateTOTPURI o <> claimedURI o.
Proof. split; [reflexivity | discriminate]. Qed.

(** ** Worked examples *)

Example exampleKey_decoded : base32Decode exampleUpper "MZXW6YTB" = Return exampleKey.
Proof. reflexivity. Qed.

Example exampleKey_nonempty : exampleKey <> [].
Proof. discriminate. Qed.

(** The padded secret of the URI counterexample is one that decodes. *)
Example padded_secret_decodes :
  base32Decode exampleUpper "MZXW6YQ=" = Return (map byte.of_Z [102; 111; 111; 98]).
Proof. reflexivity. Qed.

(** The URI of the test suite. *)
Example generateTOTPURI_example :
  generateTOTPURI exampleURIOptions
  = "otpauth://totp/Rabbit%20Company%3Ainfo%40rabbit-company.com?secret=MZXW6YTB&issuer=Rabbit+Company&algorithm=SHA256&digits=8&period=60".
Proof. reflexivity. Qed.

(** A time step of zero: the counter is not finite and [BigInt] throws. *)
Example generateTOTP_zero_timeStep :
  generateTOTP exampleUpper exampleHMAC 0 "MZXW6YTB"
    {| timeStep := Some 0; digits := None; timestamp := Some 59000;
       algorithm := None; window := None |}
  = ([ImportKey SHA1 exampleKey], Throw RangeError).
Proof. reflexivity. Qed.

(** C1 at the example inputs, the two calls made at different clock readings. *)
Lemma verifyTOTP_generateTOTP_roundtrip_witness :
  exists code,
    settled (generateTOTP exampleUpper exampleHMAC 0 "MZXW6YTB" exampleOptions) = Return code
    /\ settled (verifyTOTP exampleUpper exampleHMAC 5 code "MZXW6YTB"
                  (withWindow exampleOptions (Some 2)))
       = Return true.
Proof.
  apply (verifyTOTP_generateTOTP_roundtrip exampleUpper exampleHMAC 0 5 "MZXW6YTB"
           exampleOptions (Some 2) exampleKey).
  - reflexivity.
  - discriminate.
  - cbn. lia.
  - cbn. lia.
  - cbn. lia.
  - discriminate.
Defined.

(** C1, as the specification has it, fails on the secrets that decode to
    no byte at all, such as "A" and the empty text: they decode without
    error, the provider refuses the empty key, and both calls reject with
    DataError. *)
Lemma roundtrip_empty_key_counterexample :
  base32Decode exampleUpper "A" = Return []
  /\ base32Decode exampleUpper "" = Return []
  /\ (1 <= Js.default (digits exampleOptions) 6)%nat
  /\ 1 <= Js.default (timeStep exampleOptions) 30
  /\ 0 <= Js.default (window exampleOptions) 1
  /\ generateTOTP exampleUpper exampleHMAC 0 "A" exampleOptions
     = ([ImportKey SHA1 []], Throw DataError)
  /\ (forall token,
        verifyTOTP exampleUpper exampleHMAC 0 token "A" exampleOptions
        = ([ImportKey SHA1 []], Throw DataError))
  /\ generateTOTP exampleUpper exampleHMAC 0 "" exampleOptions
     = ([ImportKey SHA1 []], Throw DataError).
Proof.
  repeat split; try (cbn; lia).
Qed.

(** C2 at the MAC of the example provider for counter 1. *)
Lemma hotp_dynamic_truncation_witness :
  0 <= truncation_binary (exampleHMAC SHA1 exampleKey (counterBytes 1)) < 2 ^ 31.
Proof.
  pose proof (hotp_dynamic_truncation exampleHMAC exampleKey 1 6 SHA1
                (or_introl eq_refl)) as (_ & _ & _ & _ & H & _).
  exact H.
Defined.

(** C3 at the example inputs. *)
Lemma verifyTOTP_window_search_witness :
  exists (verdict : bool) (last : Z),
    settled (verifyTOTP exampleUpper exampleHMAC 0 "000000" "MZXW6YTB" exampleOptions)
    = Return verdict
    /\ - 1 <= last <= 1.
Proof.
  destruct (verifyTOTP_window_search exampleUpper exampleHMAC 0 "000000" "MZXW6YTB"
              exampleOptions exampleKey eq_refl ltac:(discriminate)
              ltac:(cbn; lia) ltac:(cbn; lia))
    as (verdict & last & Hret & _ & Hlast & _).
  exists verdict, last. split; [exact Hret | exact Hlast].
Defined.

(** C3, as the specification has it, fails in two places: at a time step
    of zero the counter is not finite and the call rejects with RangeError
    after importing the key, and for a secret that decodes to no byte the
    provider refuses the key and the call rejects with DataError; neither
    call returns a boolean. *)
Lemma window_search_counterexample :
  let zeroStep := {| timeStep := Some 0; digits := Some 6%nat; timestamp := Some 59000;
                     algorithm := Some SHA1; window := Some 1 |} in
  base32Decode exampleUpper "MZXW6YTB" = Return exampleKey
  /\ 0 <= Js.default (window zeroStep) 1
  /\ (forall token,
        verifyTOTP exampleUpper exampleHMAC 0 token "MZXW6YTB" zeroStep
        = ([ImportKey SHA1 exampleKey], Throw RangeError))
  /\ base32Decode exampleUpper "A" = Return []
  /\ 0 <= Js.default (window exampleOptions) 1
  /\ (forall token,
        verifyTOTP exampleUpper exampleHMAC 0 token "A" exampleOptions
        = ([ImportKey SHA1 []], Throw DataError)).
Proof.
  repeat split; try (cbn; lia).
Qed.

(** C4 at a lower-case, padded input: the text is stripped and turned
    into upper case, and decodes to the bytes of "fooba". *)
Lemma base32Decode_correct_witness :
  Js.toUpperCase exampleUpper (Js.replace_trailing_eq "mzxw6ytb====") = "MZXW6YTB"
  /\ asciiUpper (Js.replace_trailing_eq "mzxw6ytb====") = "MZXW6YTB"
  /\ base32Decode exampleUpper "mzxw6ytb====" = Return exampleKey.
Proof.
  pose proof (base32Decode_correct exampleUpper "mzxw6ytb====") as (_ & Hup & _ & Hret).
  split; [reflexivity |]. split; [symmetry; apply Hup; reflexivity |].
  change (Return exampleKey)
    with (Return (bytesOfBits
                    (bitstream (Js.toUpperCase exampleUpper
                                  (Js.replace_trailing_eq "mzxw6ytb===="))))).
  apply Hret. intros c Hin. vm_compute in Hin.
  repeat (destruct Hin as [<- | Hin]; [discriminate |]). contradiction.
Defined.


(** C7 at the negative options. *)
Lemma parameters_not_validated_witness :
  (exists code,
     settled (generateTOTP exampleUpper exampleHMAC 0 "MZXW6YTB" negativeOptions) = Return code)
  /\ settled (verifyTOTP exampleUpper exampleHMAC 0 "000000" "MZXW6YTB" negativeOptions)
     = Return false.
Proof.
  destruct (parameters_not_validated exampleUpper exampleHMAC 0 "000000" "MZXW6YTB"
              negativeOptions exampleKey eq_refl) as (Hstep & Hwindow).
  split.
  - destruct (Hstep ltac:(discriminate) ltac:(cbn; lia)) as ((code & Hcode & _) & _).
    exists code. exact Hcode.
  - apply Hwindow. cbn. lia.
Defined.

(** C7, as the specification has it, fails at the negative options: both
    calls settle with a result instead of failing. *)
Lemma parameters_validated_counterexample :
  Js.default (timeStep negativeOptions) 30 < 0
  /\ Js.default (window negativeOptions) 1 < 0
  /\ settled (generateTOTP exampleUpper exampleHMAC 0 "MZXW6YTB" negativeOptions)
     = Return "744512"
  /\ settled (verifyTOTP exampleUpper exampleHMAC 0 "744512" "MZXW6YTB" negativeOptions)
     = Return false.
Proof. repeat split. Qed.

(** C8, as the specification has it, fails above 65536 characters: the
    random source refuses an array that long and no secret is returned. *)
Lemma generateTOTPSecret_quota_counterexample :
  generateTOTPSecret (fun i => byte.of_Z (Z.of_nat i)) (Z.to_nat 65537)
  = Throw QuotaExceededError.
Proof. apply generateTOTPSecret_quota. rewrite Z2Nat.id; lia. Qed.

(** C8 at length 16. *)
Lemma generateTOTPSecret_shape_witness :
  exists secret,
    generateTOTPSecret (fun i => byte.of_Z (Z.of_nat (37 * i))) 16 = Return secret
    /\ String.length secret = 16%nat
    /\ allInAlphabet secret = true.
Proof.
  destruct (generateTOTPSecret_shape (fun i => byte.of_Z (Z.of_nat (37 * i))) 16)
    as (Hsmall & _).
  destruct (Hsmall ltac:(lia)) as (secret & Hret & Hlen & Hall & _).
  exists secret. repeat split; assumption.
Defined.

(** C9 at the negative options. *)
Lemma verifyTOTP_negative_window_witness :
  verifyTOTP exampleUpper exampleHMAC 0 "744512" "MZXW6YTB" negativeOptions
  = ([], Return false).
Proof.
  apply (verifyTOTP_negative_window exampleUpper exampleHMAC 0 "744512" "MZXW6YTB"
           negativeOptions exampleKey eq_refl).
  cbn. lia.
Defined.

(** At the epoch with window 1, [verifyTOTP] signs the counter -1: eight
    bytes 0xFF. *)
Example verifyTOTP_signs_minus_one :
  In (Sign {| key_hash := SHA1; key_raw := exampleKey |} (map byte.of_Z (repeat 255 8)))
     (made (verifyTOTP exampleUpper exampleHMAC 0 "000000" "MZXW6YTB" epochOptions)).
Proof. vm_compute. right. left. reflexivity. Qed.

(** C10 at the epoch: the base counter 0 is below the window 1, and the
    message of the counter -1 is signed. *)
Lemma hotp_counter_message_witness :
  exists data,
    In (Sign {| key_hash := SHA1; key_raw := exampleKey |} data)
       (made (verifyTOTP exampleUpper exampleHMAC 0 "000000" "MZXW6YTB" epochOptions))
    /\ bigEndianValue data = (0 - 1) mod 2 ^ 64.
Proof.
  destruct (hotp_counter_message exampleUpper exampleHMAC exampleKey 0 6 SHA1)
    as (_ & _ & Hreach).
  destruct (Hreach 0 "000000" "MZXW6YTB" epochOptions eq_refl ltac:(discriminate)
              ltac:(cbn; lia) ltac:(cbn; lia) ltac:(cbn; lia))
    as (data & Hin & Hval & _).
  exists data. split; assumption.
Defined.

(** C10, as the specification has it, fails where the loop does not get
    to sign: with the base counter 0 below the window 1, a secret that
    decodes to no byte has its key refused and nothing is signed. *)
Lemma negative_counter_not_reached_counterexample :
  base32Decode exampleUpper "A" = Return []
  /\ baseCounter 0 epochOptions < Js.default (window epochOptions) 1
  /\ forall token,
       verifyTOTP exampleUpper exampleHMAC 0 token "A" epochOptions
       = ([ImportKey SHA1 []], Throw DataError).
Proof.
  repeat split.
Qed.

(** * Further properties of the module *)

(** ** Base32: case, padding, length, foreign characters *)

Lemma upperLetter_eq_pad (c : ascii) : (upperLetter c =? "=")%char = (c =? "=")%char.
Proof.
  destruct c as [b0 b1 b2 b3 b4 b5 b6 b7].
  destruct b0, b1, b2, b3, b4, b5, b6, b7; reflexivity.
Qed.

Lemma upper_alphabet (c : ascii) :
  inAlphabet c = true -> Js.upper c = c /\ c <> "="%char /\ Js.isASCII c = true.
Proof.
  destruct c as [b0 b1 b2 b3 b4 b5 b6 b7].
  destruct b0, b1, b2, b3, b4, b5, b6, b7; vm_compute; intros H;
    first [discriminate H | split; [reflexivity | split; [discriminate | reflexivity]]].
Qed.

Lemma asciiUpper_length (s : string) : String.length (asciiUpper s) = String.length s.
Proof. induction s as [| c s IH]; cbn; [reflexivity | now rewrite IH]. Qed.

(** Stripping the padding and upper-casing the letters a-z can be done in
    either order. *)
Lemma replace_trailing_eq_asciiUpper (s : string) :
  Js.replace_trailing_eq (asciiUpper s) = asciiUpper (Js.replace_trailing_eq s).
Proof.
  induction s as [| c s IH]; [reflexivity |].
  cbn [asciiUpper Js.replace_trailing_eq]. rewrite IH.
  destruct (Js.replace_trailing_eq s) as [| c' r]; cbn [asciiUpper].
  - rewrite upperLetter_eq_pad. now destruct (c =? "=")%char.
  - reflexivity.
Qed.

Lemma replace_trailing_eq_padding (k : nat) : Js.replace_trailing_eq (padding k) = "".
Proof. induction k as [| k IH]; cbn; [reflexivity | now rewrite IH]. Qed.

Lemma replace_trailing_eq_append_padding (s : string) (k : nat) :
  Js.replace_trailing_eq (s ++ padding k) = Js.replace_trailing_eq s.
Proof.
  induction s as [| c s IH]; cbn [append Js.replace_trailing_eq].
  - apply replace_trailing_eq_padding.
  - now rewrite IH.
Qed.

(** What comes before a stretch that does not vanish is kept whole. *)
Lemma replace_trailing_eq_append (s1 s2 : string) :
  Js.replace_trailing_eq s2 <> "" ->
  Js.replace_trailing_eq (s1 ++ s2) = (s1 ++ Js.replace_trailing_eq s2)%string.
Proof.
  intros H. induction s1 as [| c s1 IH]; cbn [append Js.replace_trailing_eq]; [reflexivity |].
  rewrite IH. destruct (s1 ++ Js.replace_trailing_eq s2)%string eqn:E; [| reflexivity].
  destruct s1; cbn in E; [contradiction | discriminate].
Qed.

Lemma replace_trailing_eq_keeps (s : string) (c : ascii) :
  In c (list_ascii_of_string s) -> c <> "="%char ->
  In c (list_ascii_of_string (Js.replace_trailing_eq s)).
Proof.
  intros Hin Hc. induction s as [| x s IH]; [contradiction |].
  cbn [Js.replace_trailing_eq]. cbn in Hin. destruct Hin as [-> | Hin].
  - destruct (Js.replace_trailing_eq s); [| left; reflexivity].
    destruct (Ascii.eqb_spec c "="%char); [contradiction | left; reflexivity].
  - specialize (IH Hin). destruct (Js.replace_trailing_eq s); [contradiction |].
    right. exact IH.
Qed.

Lemma base32Decode_throws_on (unicodeUpper : string -> string) (input : string) (c : ascii) :
  In c (list_ascii_of_string (Js.toUpperCase unicodeUpper (Js.replace_trailing_eq input))) ->
  base32Value c = None ->
  base32Decode unicodeUpper input = Throw (Error "Invalid Base32 character in secret").
Proof.
  intros Hin Hc. pose proof (base32Decode_spec unicodeUpper input) as H. cbv zeta in H.
  rewrite H.
  assert (E : allInAlphabet (Js.toUpperCase unicodeUpper (Js.replace_trailing_eq input)) = false)
    by (apply allInAlphabet_exists; eauto).
  now rewrite E.
Qed.

(** X1. Decoding does not look at the case of the letters: two texts that
    are the same once a-z are turned into A-Z decode alike, whatever the
    case table does to the other characters. *)
Theorem base32Decode_case_insensitive (unicodeUpper : string -> string) (s1 s2 : string) :
  asciiUpper s1 = asciiUpper s2 ->
  base32Decode unicodeUpper s1 = base32Decode unicodeUpper s2.
Proof.
  intros H.
  pose proof (base32Decode_spec unicodeUpper s1) as H1.
  pose proof (base32Decode_spec unicodeUpper s2) as H2.
  cbv zeta in H1, H2.
  assert (E : Js.toUpperCase unicodeUpper (Js.replace_trailing_eq s1)
              = Js.toUpperCase unicodeUpper (Js.replace_trailing_eq s2)).
  { apply toUpperCase_from_asciiUpper.
    now rewrite <- !replace_trailing_eq_asciiUpper, H. }
  rewrite H1, H2, E. reflexivity.
Qed.

(** X2. Any number of "=" at the end of the text is ignored. *)
Theorem base32Decode_ignores_padding (unicodeUpper : string -> string) (s : string) (k : nat) :
  base32Decode unicodeUpper (s ++ padding k) = base32Decode unicodeUpper s.
Proof.
  pose proof (base32Decode_spec unicodeUpper (s ++ padding k)) as H1.
  pose proof (base32Decode_spec unicodeUpper s) as H2. cbv zeta in H1, H2.
  rewrite replace_trailing_eq_append_padding in H1.
  now rewrite H1, H2.
Qed.

Lemma bitstream_length (s : string) :
  allInAlphabet s = true -> List.length (bitstream s) = (5 * String.length s)%nat.
Proof.
  induction s as [| c s IH]; [reflexivity |].
  cbn [allInAlphabet bitstream String.length]. unfold inAlphabet.
  destruct (base32Value c); [| discriminate].
  intros H. cbn [andb] in H. rewrite length_app, (IH H). cbn [bits5 List.length]. lia.
Qed.

Lemma bytesOfBits_length (n : nat) :
  forall bits, (List.length bits <= n)%nat ->
    List.length (bytesOfBits bits) = (List.length bits / 8)%nat.
Proof.
  induction n as [| n IH]; intros bits Hn.
  - destruct bits; [reflexivity | cbn in Hn; lia].
  - destruct (Nat.lt_ge_cases (List.length bits) 8) as [Hlt | Hge].
    + rewrite bytesOfBits_short by assumption. now rewrite Nat.div_small.
    + destruct bits as [| b7 [| b6 [| b5 [| b4 [| b3 [| b2 [| b1 [| b0 rest]]]]]]]];
        cbn in Hge; try lia.
      cbn [bytesOfBits List.length]. rewrite IH by (cbn in Hn; lia).
      change (S (S (S (S (S (S (S (S (List.length rest)))))))))
        with (1 * 8 + List.length rest)%nat.
      rewrite Nat.div_add_l by lia. reflexivity.
Qed.

(** The bytes of a clean text: floor(5 m / 8) of them for [m] characters. *)
Lemma decoded_length (cleaned : string) :
  allInAlphabet cleaned = true ->
  List.length (bytesOfBits (bitstream cleaned)) = (5 * String.length cleaned / 8)%nat.
Proof.
  intros E. now rewrite (bytesOfBits_length _ _ (le_n _)), (bitstream_length _ E).
Qed.

(** A clean text gives no byte exactly when it has at most one character. *)
Lemma decoded_empty_iff (cleaned : string) :
  allInAlphabet cleaned = true ->
  bytesOfBits (bitstream cleaned) = [] <-> (String.length cleaned <= 1)%nat.
Proof.
  intros E. pose proof (decoded_length cleaned E) as Hlen.
  destruct (bytesOfBits (bitstream cleaned)) as [| b l].
  - cbn [List.length] in Hlen. split; [intros _ | reflexivity].
    destruct (Nat.le_gt_cases (String.length cleaned) 1) as [H | H]; [exact H |].
    assert (1 <= 5 * String.length cleaned / 8)%nat
      by (apply Nat.div_le_lower_bound; lia).
    lia.
  - cbn [List.length] in Hlen. split; [discriminate |].
    intros H. exfalso.
    assert (5 * String.length cleaned / 8 = 0)%nat by (apply Nat.div_small; lia).
    lia.
Qed.

Lemma base32Decode_return_length (unicodeUpper : string -> string) (input : string)
  (bytes : list byte) :
  base32Decode unicodeUpper input = Return bytes ->
  List.length bytes
  = (5 * String.length (Js.toUpperCase unicodeUpper (Js.replace_trailing_eq input)) / 8)%nat.
Proof.
  pose proof (base32Decode_spec unicodeUpper input) as H. cbv zeta in H. rewrite H.
  destruct (allInAlphabet _) eqn:E; [| discriminate].
  intros Hret. assert (Hb : bytes = bytesOfBits (bitstream
    (Js.toUpperCase unicodeUpper (Js.replace_trailing_eq input)))) by congruence.
  rewrite Hb. now apply decoded_length.
Qed.

(** X3. A decoded secret has floor(5 m / 8) bytes, [m]
    the number of characters of the text after the padding is removed and
    the rest is turned into upper case; for ASCII input that is the number
    of characters left after the padding is removed. *)
Theorem base32Decode_length (unicodeUpper : string -> string) (input : string)
  (bytes : list byte) :
  base32Decode unicodeUpper input = Return bytes ->
  List.length bytes
  = (5 * String.length (Js.toUpperCase unicodeUpper (Js.replace_trailing_eq input)) / 8)%nat
  /\ (isAsciiText input = true ->
      List.length bytes = (5 * String.length (Js.replace_trailing_eq input) / 8)%nat).
Proof.
  intros H. pose proof (base32Decode_return_length unicodeUpper input bytes H) as Hlen.
  split; [exact Hlen |].
  intros Hascii. rewrite Hlen.
  rewrite (toUpperCase_ascii_text unicodeUpper _ (isAsciiText_replace_trailing_eq _ Hascii)).
  now rewrite asciiUpper_length.
Qed.

(** Upper-casing can lengthen the text: four ligatures U+FB01, 12 bytes of
    UTF-8, become the eight letters FIFIFIFI and decode to five bytes. *)
Example base32Decode_ligatures :
  let fi := String (ascii_of_nat 239) (String (ascii_of_nat 172)
              (String (ascii_of_nat 129) EmptyString)) in
  option_map (@List.length byte)
    (match base32Decode exampleUpper (fi ++ fi ++ fi ++ fi) with
     | Return bytes => Some bytes
     | Throw _ => None
     end)
  = Some 5%nat.
Proof. reflexivity. Qed.

(** X4. An ASCII character that is not "=" and whose
    upper case is outside A-Z 2-7 makes the decoder throw, wherever it
    stands: a space, a digit 0, 1, 8 or 9, a hyphen. *)
Theorem base32Decode_rejects_foreign (unicodeUpper : string -> string) (input : string)
  (c : ascii) :
  In c (list_ascii_of_string input) ->
  Js.isASCII c = true ->
  c <> "="%char ->
  base32Value (Js.upper c) = None ->
  base32Decode unicodeUpper input = Throw (Error "Invalid Base32 character in secret").
Proof.
  intros Hin Hascii Hc Hv.
  apply (base32Decode_throws_on unicodeUpper input (Js.upper c)); [| assumption].
  apply toUpperCase_from_In; [assumption |].
  apply replace_trailing_eq_keeps; assumption.
Qed.

Lemma replace_trailing_eq_cons (x : ascii) (s : string) :
  Js.replace_trailing_eq s <> "" ->
  Js.replace_trailing_eq (String x s) = String x (Js.replace_trailing_eq s).
Proof.
  intros H. cbn [Js.replace_trailing_eq].
  destruct (Js.replace_trailing_eq s); [contradiction | reflexivity].
Qed.

Lemma replace_trailing_eq_last (c : ascii) (s : string) :
  c <> "="%char -> Js.replace_trailing_eq (String c s) <> "".
Proof.
  intros Hc. cbn [Js.replace_trailing_eq].
  destruct (Js.replace_trailing_eq s); [| discriminate].
  destruct (Ascii.eqb_spec c "="%char); [contradiction | discriminate].
Qed.

Lemma In_append_cons (x : ascii) (s1 s2 : string) :
  In x (list_ascii_of_string (s1 ++ String x s2)).
Proof. induction s1 as [| y s1 IH]; cbn; [left; reflexivity | right; exact IH]. Qed.

(** X5. Padding is accepted at the end only: an "=" with another character
    somewhere after it makes the decoder throw. *)
Theorem base32Decode_rejects_inner_padding (unicodeUpper : string -> string)
  (s1 s2 : string) (c : ascii) :
  c <> "="%char ->
  base32Decode unicodeUpper (s1 ++ String "=" (String c s2))
  = Throw (Error "Invalid Base32 character in secret").
Proof.
  intros Hc.
  apply (base32Decode_throws_on unicodeUpper _ "="%char); [| reflexivity].
  change "="%char with (Js.upper "="%char) at 1.
  apply toUpperCase_from_In; [reflexivity |].
  pose proof (replace_trailing_eq_last c s2 Hc) as Hne.
  rewrite replace_trailing_eq_append;
    rewrite replace_trailing_eq_cons by assumption.
  - apply In_append_cons.
  - discriminate.
Qed.

(** ** Generation and verification: errors, calls, windows *)

Section Api.

Variable unicodeUpper : string -> string.
Variable HMAC : HashAlgorithm -> list byte -> list byte -> list byte.

Lemma generateTOTP_invalid now secret opts e :
  base32Decode unicodeUpper secret = Throw e ->
  generateTOTP unicodeUpper HMAC now secret opts = ([], Throw e).
Proof. intros H. unfold generateTOTP. now rewrite H. Qed.

Lemma verifyTOTP_invalid now token secret opts e :
  base32Decode unicodeUpper secret = Throw e ->
  verifyTOTP unicodeUpper HMAC now token secret opts = ([], Throw e).
Proof. intros H. unfold verifyTOTP. now rewrite H. Qed.

Lemma floor_div_1000_zero (a : Z) : Js.floor_div_1000 a 0 = Js.NonFinite.
Proof. reflexivity. Qed.

(** A secret that decodes to no byte: the provider refuses the key. *)
Lemma generateTOTP_empty_key now secret opts :
  base32Decode unicodeUpper secret = Return [] ->
  generateTOTP unicodeUpper HMAC now secret opts
  = ([ImportKey (Js.default (algorithm opts) SHA1) []], Throw DataError).
Proof.
  intros Hkey. unfold generateTOTP.
  rewrite Hkey, await_sync_return. apply hotp_empty_key.
Qed.

Lemma verifyTOTP_empty_key now token secret opts :
  base32Decode unicodeUpper secret = Return [] ->
  0 <= Js.default (window opts) 1 ->
  verifyTOTP unicodeUpper HMAC now token secret opts
  = ([ImportKey (Js.default (algorithm opts) SHA1) []], Throw DataError).
Proof.
  intros Hkey Hw. unfold verifyTOTP.
  rewrite Hkey, await_sync_return, verifyTOTP_loop_step.
  destruct (Z.leb_spec (- Js.default (window opts) 1) (Js.default (window opts) 1));
    [| lia].
  rewrite hotp_empty_key. reflexivity.
Qed.

Lemma generateTOTP_zero_step now secret opts key :
  base32Decode unicodeUpper secret = Return key ->
  key <> [] ->
  Js.default (timeStep opts) 30 = 0 ->
  generateTOTP unicodeUpper HMAC now secret opts
  = ([ImportKey (Js.default (algorithm opts) SHA1) key], Throw RangeError).
Proof.
  intros Hkey Hne Hstep. unfold generateTOTP.
  rewrite Hkey, await_sync_return, Hstep, floor_div_1000_zero.
  now rewrite hotp_nonfinite.
Qed.

Lemma verifyTOTP_zero_step now token secret opts key :
  base32Decode unicodeUpper secret = Return key ->
  key <> [] ->
  Js.default (timeStep opts) 30 = 0 ->
  0 <= Js.default (window opts) 1 ->
  verifyTOTP unicodeUpper HMAC now token secret opts
  = ([ImportKey (Js.default (algorithm opts) SHA1) key], Throw RangeError).
Proof.
  intros Hkey Hne Hstep Hw. unfold verifyTOTP.
  rewrite Hkey, await_sync_return, Hstep, floor_div_1000_zero, verifyTOTP_loop_step.
  destruct (Z.leb_spec (- Js.default (window opts) 1) (Js.default (window opts) 1));
    [| lia].
  cbn [Js.add]. now rewrite hotp_nonfinite.
Qed.

Lemma generateTOTP_decoded now secret opts key :
  base32Decode unicodeUpper secret = Return key ->
  key <> [] ->
  Js.default (timeStep opts) 30 <> 0 ->
  generateTOTP unicodeUpper HMAC now secret opts
  = ([ImportKey (Js.default (algorithm opts) SHA1) key;
      Sign {| key_hash := Js.default (algorithm opts) SHA1; key_raw := key |}
           (counterBytes (baseCounter now opts))],
     Return (hotp_code
               (hotp_binary (HMAC (Js.default (algorithm opts) SHA1) key
                               (counterBytes (baseCounter now opts))))
               (Js.default (digits opts) 6%nat))).
Proof.
  intros Hkey Hne Hstep.
  rewrite (generateTOTP_runs_hotp unicodeUpper HMAC now secret opts key Hkey Hstep).
  unfold hotpOptions. now apply hotp_int.
Qed.

(** X7. The failures of [generateTOTP], all of them:
    the Error of the decoder when a character of the cleaned secret is
    outside the alphabet; the DataError of the provider when the cleaned
    secret has at most one character and so decodes to an empty key; and the
    RangeError of [BigInt] when the secret decodes to a key that is not
    empty and the time step is 0. *)
Theorem generateTOTP_throws_iff now secret opts e :
  let cleaned := Js.toUpperCase unicodeUpper (Js.replace_trailing_eq secret) in
  settled (generateTOTP unicodeUpper HMAC now secret opts) = Throw e
  <-> (e = Error "Invalid Base32 character in secret" /\ allInAlphabet cleaned = false)
      \/ (e = DataError /\ allInAlphabet cleaned = true
          /\ (String.length cleaned <= 1)%nat)
      \/ (e = RangeError /\ allInAlphabet cleaned = true
          /\ (2 <= String.length cleaned)%nat
          /\ Js.default (timeStep opts) 30 = 0).
Proof.
  intros cleaned.
  pose proof (base32Decode_spec unicodeUpper secret) as Hd. cbv zeta in Hd.
  fold cleaned in Hd.
  destruct (allInAlphabet cleaned) eqn:Hall.
  - pose proof (decoded_empty_iff cleaned Hall) as Hempty.
    destruct (bytesOfBits (bitstream cleaned)) as [| b key] eqn:Hkey.
    + pose proof (proj1 Hempty eq_refl) as Hlen.
      rewrite (generateTOTP_empty_key now secret opts Hd). cbn [settled snd]. split.
      * intros [= <-]. right. left. auto.
      * intros [[_ H] | [[-> _] | (_ & _ & H & _)]];
          [discriminate | reflexivity | lia].
    + assert (Hlen : (2 <= String.length cleaned)%nat).
      { destruct (Nat.le_gt_cases (String.length cleaned) 1) as [H | H]; [| lia].
        apply Hempty in H. discriminate H. }
      destruct (Z.eq_dec (Js.default (timeStep opts) 30) 0) as [Hz | Hnz].
      * rewrite (generateTOTP_zero_step now secret opts _ Hd ltac:(discriminate) Hz).
        cbn [settled snd]. split.
        -- intros [= <-]. right. right. auto.
        -- intros [[_ H] | [(_ & _ & H) | [-> _]]];
             [discriminate | lia | reflexivity].
      * rewrite (generateTOTP_decoded now secret opts _ Hd ltac:(discriminate) Hnz).
        cbn [settled snd]. split.
        -- discriminate.
        -- intros [[_ H] | [(_ & _ & H) | (_ & _ & _ & H)]];
             [discriminate | lia | contradiction].
  - rewrite (generateTOTP_invalid now secret opts _ Hd). cbn [settled snd]. split.
    + intros [= <-]. left. auto.
    + intros [[-> _] | [(_ & H & _) | (_ & H & _)]];
        [reflexivity | discriminate | discriminate].
Qed.

(** X8. The failures of [verifyTOTP], all of them: the
    Error of the decoder as for [generateTOTP]; and, only when the window is
    not negative, the DataError of the provider for a cleaned secret of at
    most one character and the RangeError of [BigInt] for a longer one with
    a time step of 0. *)
Theorem verifyTOTP_throws_iff now token secret opts e :
  let cleaned := Js.toUpperCase unicodeUpper (Js.replace_trailing_eq secret) in
  settled (verifyTOTP unicodeUpper HMAC now token secret opts) = Throw e
  <-> (e = Error "Invalid Base32 character in secret" /\ allInAlphabet cleaned = false)
      \/ (e = DataError /\ allInAlphabet cleaned = true
          /\ (String.length cleaned <= 1)%nat
          /\ 0 <= Js.default (window opts) 1)
      \/ (e = RangeError /\ allInAlphabet cleaned = true
          /\ (2 <= String.length cleaned)%nat
          /\ Js.default (timeStep opts) 30 = 0
          /\ 0 <= Js.default (window opts) 1).
Proof.
  intros cleaned.
  pose proof (base32Decode_spec unicodeUpper secret) as Hd. cbv zeta in Hd.
  fold cleaned in Hd.
  destruct (allInAlphabet cleaned) eqn:Hall.
  - destruct (Z_lt_le_dec (Js.default (window opts) 1) 0) as [Hneg | Hpos].
    { rewrite (verifyTOTP_empty_window unicodeUpper HMAC now token secret opts _ Hd Hneg).
      cbn [settled snd]. split.
      - discriminate.
      - intros [[_ H] | [(_ & _ & _ & H) | (_ & _ & _ & _ & H)]];
          [discriminate | lia | lia]. }
    pose proof (decoded_empty_iff cleaned Hall) as Hempty.
    destruct (bytesOfBits (bitstream cleaned)) as [| b key] eqn:Hkey.
    + pose proof (proj1 Hempty eq_refl) as Hlen.
      rewrite (verifyTOTP_empty_key now token secret opts Hd Hpos). cbn [settled snd]. split.
      * intros [= <-]. right. left. auto.
      * intros [[_ H] | [[-> _] | (_ & _ & H & _)]];
          [discriminate | reflexivity | lia].
    + assert (Hlen : (2 <= String.length cleaned)%nat).
      { destruct (Nat.le_gt_cases (String.length cleaned) 1) as [H | H]; [| lia].
        apply Hempty in H. discriminate H. }
      destruct (Z.eq_dec (Js.default (timeStep opts) 30) 0) as [Hz | Hnz].
      * rewrite (verifyTOTP_zero_step now token secret opts _ Hd ltac:(discriminate) Hz Hpos).
        cbn [settled snd]. split.
        -- intros [= <-]. right. right. auto.
        -- intros [[_ H] | [(_ & _ & H & _) | [-> _]]];
             [discriminate | lia | reflexivity].
      * destruct (verifyTOTP_cases unicodeUpper HMAC now token secret opts _ Hd
                    ltac:(discriminate) Hnz Hpos)
          as (verdict & _ & -> & _). split.
        -- discriminate.
        -- intros [[_ H] | [(_ & _ & H & _) | (_ & _ & _ & H & _)]];
             [discriminate | lia | contradiction].
  - rewrite (verifyTOTP_invalid now token secret opts _ Hd). cbn [settled snd]. split.
    + intros [= <-]. left. auto.
    + intros [[-> _] | [(_ & H & _) | (_ & H & _)]];
        [reflexivity | discriminate | discriminate].
Qed.

Lemma interval_length (a b : Z) : List.length (interval a b) = Z.to_nat (b + 1 - a).
Proof. unfold interval. now rewrite length_map, length_seq. Qed.

Lemma flat_map_length_const {A B : Type} (f : A -> list B) (k : nat) (l : list A) :
  (forall x, List.length (f x) = k) -> List.length (flat_map f l) = (k * List.length l)%nat.
Proof.
  intros H. induction l as [| x l IH]; cbn; [lia |].
  rewrite length_app, H, IH. lia.
Qed.

(** X9. For a secret that decodes to a key of at
    least one byte, [verifyTOTP] makes two provider calls for each counter it
    tries: at least one counter and at most 2 * window + 1, all of them when
    it settles with false. *)
Theorem verifyTOTP_call_count now token secret opts key :
  let w := Js.default (window opts) 1 in
  base32Decode unicodeUpper secret = Return key ->
  key <> [] ->
  Js.default (timeStep opts) 30 <> 0 ->
  0 <= w ->
  exists tried : Z,
    1 <= tried <= 2 * w + 1
    /\ Z.of_nat (List.length (made (verifyTOTP unicodeUpper HMAC now token secret opts)))
       = 2 * tried
    /\ (settled (verifyTOTP unicodeUpper HMAC now token secret opts) = Return false ->
        tried = 2 * w + 1).
Proof.
  intros w Hkey Hne Hstep Hw.
  destruct (verifyTOTP_cases unicodeUpper HMAC now token secret opts key Hkey Hne Hstep Hw)
    as (verdict & last & Hret & _ & Hlast & Hmade & _ & Hend).
  fold w in Hlast, Hmade, Hend.
  exists (last + w + 1). split; [lia |]. split.
  - rewrite Hmade, (flat_map_length_const _ 2%nat), interval_length; [lia |].
    intros ew. unfold hotpOptions. now rewrite hotp_int.
  - rewrite Hret. intros [= ->]. lia.
Qed.

(** X10. Widening the window never turns an accepted token into a rejected
    one. *)
Theorem verifyTOTP_window_monotone now token secret opts (w1 w2 : Z) :
  settled (verifyTOTP unicodeUpper HMAC now token secret (withWindow opts (Some w1)))
  = Return true ->
  w1 <= w2 ->
  settled (verifyTOTP unicodeUpper HMAC now token secret (withWindow opts (Some w2)))
  = Return true.
Proof.
  intros H1 Hle.
  destruct (base32Decode unicodeUpper secret) as [key | e] eqn:Hkey;
    [| rewrite (verifyTOTP_invalid now token secret _ e Hkey) in H1; discriminate H1].
  destruct (Z_lt_le_dec w1 0) as [Hneg | Hpos].
  { rewrite (verifyTOTP_empty_window unicodeUpper HMAC now token secret _ key Hkey) in H1
      by (cbn; lia). discriminate H1. }
  destruct key as [| b key].
  { rewrite (verifyTOTP_empty_key now token secret _ Hkey) in H1 by (cbn; lia).
    discriminate H1. }
  destruct (Z.eq_dec (Js.default (timeStep opts) 30) 0) as [Hz | Hnz].
  { rewrite (verifyTOTP_zero_step now token secret _ _ Hkey) in H1
      by (cbn; assumption || lia || discriminate). discriminate H1. }
  destruct (verifyTOTP_cases unicodeUpper HMAC now token secret (withWindow opts (Some w1))
              _ Hkey)
    as (v1 & _ & Hret1 & Hiff1 & _); [discriminate | exact Hnz | cbn; lia |].
  destruct (verifyTOTP_cases unicodeUpper HMAC now token secret (withWindow opts (Some w2))
              _ Hkey)
    as (v2 & _ & Hret2 & Hiff2 & _); [discriminate | exact Hnz | cbn; lia |].
  rewrite Hret1 in H1. injection H1 as ->.
  rewrite Hret2. f_equal. apply Hiff2.
  destruct (proj1 Hiff1 eq_refl) as (ew & Hew & Hm).
  exists ew. split; [cbn in *; lia | exact Hm].
Qed.

(** A code made at one time is accepted at another when the base counters
    of the two times are at most [window] apart. *)
Lemma verifyTOTP_accepts_near now1 now2 secret gopts vopts key :
  let w := Js.default (window vopts) 1 in
  base32Decode unicodeUpper secret = Return key ->
  key <> [] ->
  Js.default (timeStep gopts) 30 <> 0 ->
  Js.default (timeStep vopts) 30 <> 0 ->
  hotpOptions gopts = hotpOptions vopts ->
  - w <= baseCounter now1 gopts - baseCounter now2 vopts <= w ->
  exists code,
    settled (generateTOTP unicodeUpper HMAC now1 secret gopts) = Return code
    /\ settled (verifyTOTP unicodeUpper HMAC now2 code secret vopts) = Return true.
Proof.
  intros w Hkey Hne Hg Hv Hopts Hnear.
  rewrite (generateTOTP_runs_hotp unicodeUpper HMAC now1 secret gopts key Hkey Hg).
  destruct (hotp_settles HMAC key (baseCounter now1 gopts) (hotpOptions gopts) Hne)
    as (code & Hcode).
  exists code. split; [assumption |].
  destruct (verifyTOTP_cases unicodeUpper HMAC now2 code secret vopts key Hkey Hne Hv)
    as (verdict & _ & Hret & Hiff & _); [fold w; lia |].
  rewrite Hret. f_equal. apply Hiff.
  exists (baseCounter now1 gopts - baseCounter now2 vopts). split; [exact Hnear |].
  rewrite <- Hopts.
  replace (baseCounter now2 vopts + (baseCounter now1 gopts - baseCounter now2 vopts))
    with (baseCounter now1 gopts) by lia.
  exact Hcode.
Qed.

(** X11. Clock drift: for a secret that decodes to a
    key of at least one byte, a code generated at time [t1] is accepted at
    time [t2] when the two are at most window * timeStep seconds apart. *)
Theorem verifyTOTP_tolerates_drift now1 now2 secret opts key (t1 t2 : Z) :
  let w := Js.default (window opts) 1 in
  let step := Js.default (timeStep opts) 30 in
  base32Decode unicodeUpper secret = Return key ->
  key <> [] ->
  1 <= step ->
  0 <= w ->
  Z.abs (t2 - t1) <= w * (1000 * step) ->
  exists code,
    settled (generateTOTP unicodeUpper HMAC now1 secret (withTimestamp opts t1)) = Return code
    /\ settled (verifyTOTP unicodeUpper HMAC now2 code secret (withTimestamp opts t2))
       = Return true.
Proof.
  intros w step Hkey Hne Hstep Hw Hdrift.
  apply (verifyTOTP_accepts_near now1 now2 secret _ _ key Hkey Hne);
    try (cbn; fold step; lia); [reflexivity |].
  unfold baseCounter. cbn [withTimestamp timestamp timeStep window Js.default].
  fold step. fold w.
  assert (HD : 0 < 1000 * step) by lia.
  pose proof (Z.div_le_mono (t2 - w * (1000 * step)) t1 (1000 * step) HD ltac:(lia)) as Hlo.
  pose proof (Z.div_le_mono t1 (t2 + w * (1000 * step)) (1000 * step) HD ltac:(lia)) as Hhi.
  rewrite Z.div_add in Hhi by lia.
  replace (t2 - w * (1000 * step)) with (t2 + (- w) * (1000 * step)) in Hlo by lia.
  rewrite Z.div_add in Hlo by lia.
  lia.
Qed.

(** X12. For a secret that decodes to a key of at
    least one byte, a token that does not have exactly [digits] characters,
    or has a character that is not a decimal digit, is rejected, whatever the
    window. *)
Theorem verifyTOTP_rejects_malformed_token now token secret opts key :
  let d := Js.default (digits opts) 6%nat in
  base32Decode unicodeUpper secret = Return key ->
  key <> [] ->
  Js.default (timeStep opts) 30 <> 0 ->
  (1 <= d)%nat ->
  String.length token <> d \/ allDecimal token = false ->
  settled (verifyTOTP unicodeUpper HMAC now token secret opts) = Return false.
Proof.
  intros d Hkey Hne Hstep Hd Hbad.
  destruct (Z_lt_le_dec (Js.default (window opts) 1) 0) as [Hneg | Hpos].
  { now rewrite (verifyTOTP_empty_window unicodeUpper HMAC now token secret opts key
                   Hkey Hneg). }
  destruct (verifyTOTP_cases unicodeUpper HMAC now token secret opts key Hkey Hne Hstep Hpos)
    as (verdict & _ & Hret & Hiff & _).
  rewrite Hret. destruct verdict; [| reflexivity]. exfalso.
  destruct (proj1 Hiff eq_refl) as (ew & _ & Hm).
  unfold hotpOptions in Hm. rewrite hotp_int in Hm by assumption. cbn [settled snd] in Hm.
  injection Hm as Hm. fold d in Hm.
  match type of Hm with hotp_code ?b _ = _ =>
    destruct (hotp_code_decimal b d) as (Hl & Ha & _);
      [apply hotp_binary_range | exact Hd |]
  end.
  rewrite Hm in Hl, Ha.
  destruct Hbad as [Hbad | Hbad]; [contradiction | congruence].
Qed.

(** X13. Inside one time step the code does not change: every timestamp from
    k * timeStep seconds up to the next multiple gives the same promise. *)
Theorem generateTOTP_constant_within_step now secret opts (k r : Z) :
  let step := Js.default (timeStep opts) 30 in
  1 <= step ->
  0 <= r < 1000 * step ->
  generateTOTP unicodeUpper HMAC now secret (withTimestamp opts (k * (1000 * step) + r))
  = generateTOTP unicodeUpper HMAC now secret (withTimestamp opts (k * (1000 * step))).
Proof.
  intros step Hstep Hr. unfold generateTOTP.
  cbn [withTimestamp timestamp timeStep digits algorithm Js.default]. fold step.
  rewrite !floor_div_1000_Zdiv by lia.
  rewrite Z.div_add_l, (Z.div_small r), Z.add_0_r, Z.div_mul by lia.
  reflexivity.
Qed.

(** With window 0 the loop makes one turn: the computation of [hotp] at
    the base counter, and the comparison. *)
Lemma verifyTOTP_one_turn token key counter d a :
  verifyTOTP_loop HMAC token key counter 0 d a (- 0)
  = (made (hotp HMAC key counter {| hotp_digits := Some d; hotp_algorithm := Some a |}),
     match settled (hotp HMAC key counter
                      {| hotp_digits := Some d; hotp_algorithm := Some a |}) with
     | Return code => Return (code =? token)%string
     | Throw e => Throw e
     end).
Proof.
  rewrite verifyTOTP_loop_step. cbn [Z.opp Z.leb Z.compare].
  assert (Hc : Js.add counter 0 = counter)
    by (destruct counter; cbn [Js.add]; [now rewrite Z.add_0_r | reflexivity]).
  rewrite Hc.
  destruct (hotp HMAC key counter {| hotp_digits := Some d; hotp_algorithm := Some a |})
    as [calls [code | e]]; unfold await; cbn [fst snd made settled]; [| reflexivity].
  destruct (String.eqb code token); cbn [resolve fst snd app].
  - now rewrite app_nil_r.
  - rewrite verifyTOTP_loop_step. cbn [Z.leb Z.compare Z.add Pos.compare fst snd].
    now rewrite app_nil_r.
Qed.

(** X14. With window 0, [verifyTOTP] makes exactly the
    provider calls of [generateTOTP]; it fails where [generateTOTP] fails,
    with the same error, and otherwise returns whether the token is the code
    of [generateTOTP]. *)
Theorem verifyTOTP_window_zero now token secret opts :
  verifyTOTP unicodeUpper HMAC now token secret (withWindow opts (Some 0))
  = (made (generateTOTP unicodeUpper HMAC now secret opts),
     match settled (generateTOTP unicodeUpper HMAC now secret opts) with
     | Return code => Return (code =? token)%string
     | Throw e => Throw e
     end).
Proof.
  unfold verifyTOTP, generateTOTP.
  cbn [withWindow window timeStep digits algorithm timestamp Js.default].
  destruct (base32Decode unicodeUpper secret) as [key | e]; [| reflexivity].
  rewrite !await_sync_return. apply verifyTOTP_one_turn.
Qed.

Lemma hotp_code_zero_digits (binary : Z) : hotp_code binary 0 = "0".
Proof.
  unfold hotp_code. change (10 ^ Z.of_nat 0) with 1. rewrite Z.rem_1_r. reflexivity.
Qed.

(** X16. With digits 0 the code is not empty: for a
    secret that decodes to a key of at least one byte it is "0" at every
    time, and [verifyTOTP] accepts the token "0". *)
Theorem zero_digits_code now token_time secret opts key :
  base32Decode unicodeUpper secret = Return key ->
  key <> [] ->
  Js.default (timeStep opts) 30 <> 0 ->
  0 <= Js.default (window opts) 1 ->
  digits opts = Some 0%nat ->
  settled (generateTOTP unicodeUpper HMAC now secret opts) = Return "0"
  /\ settled (verifyTOTP unicodeUpper HMAC token_time "0" secret opts) = Return true.
Proof.
  intros Hkey Hne Hstep Hw Hd. split.
  - rewrite (generateTOTP_decoded now secret opts key Hkey Hne Hstep), Hd.
    cbn [settled snd Js.default]. now rewrite hotp_code_zero_digits.
  - destruct (verifyTOTP_cases unicodeUpper HMAC token_time "0" secret opts key
                Hkey Hne Hstep Hw)
      as (verdict & _ & Hret & Hiff & _).
    rewrite Hret. f_equal. apply Hiff. exists 0. split; [lia |].
    unfold hotpOptions. rewrite hotp_int, Hd by assumption. cbn [settled snd Js.default].
    now rewrite hotp_code_zero_digits.
Qed.

(** X15. [verifyTOTP] accepts exactly the codes that [generateTOTP] gives for
    the timestamps a whole number of time steps away, at most [window] of
    them, in either direction. *)
Theorem verifyTOTP_accepts_iff_generated now token secret opts key :
  let w := Js.default (window opts) 1 in
  let step := Js.default (timeStep opts) 30 in
  let t := Js.default (timestamp opts) now in
  base32Decode unicodeUpper secret = Return key ->
  step <> 0 ->
  0 <= w ->
  settled (verifyTOTP unicodeUpper HMAC now token secret opts) = Return true
  <-> exists ew,
        - w <= ew <= w
        /\ settled (generateTOTP unicodeUpper HMAC now secret
                      (withTimestamp opts (t + ew * (1000 * step))))
           = Return token.
Proof.
  intros w step t Hkey Hstep Hw.
  destruct key as [| b key].
  { rewrite (verifyTOTP_empty_key now token secret opts Hkey Hw). split.
    - discriminate.
    - intros (ew & _ & H).
      rewrite (generateTOTP_empty_key now secret _ Hkey) in H. discriminate H. }
  assert (Hne : b :: key <> []) by discriminate.
  destruct (verifyTOTP_cases unicodeUpper HMAC now token secret opts _ Hkey Hne Hstep Hw)
    as (verdict & _ & Hret & Hiff & _).
  fold w in Hiff.
  assert (Hgen : forall ew,
             generateTOTP unicodeUpper HMAC now secret
               (withTimestamp opts (t + ew * (1000 * step)))
             = hotp HMAC (b :: key) (Js.Int (baseCounter now opts + ew)) (hotpOptions opts)).
  { intros ew.
    rewrite (generateTOTP_runs_hotp unicodeUpper HMAC now secret _ _ Hkey) by exact Hstep.
    unfold baseCounter. cbn [withTimestamp timestamp timeStep Js.default].
    fold step. fold t. rewrite Z.div_add by lia. reflexivity. }
  rewrite Hret. split.
  - intros [= ->]. destruct (proj1 Hiff eq_refl) as (ew & Hew & Hm).
    exists ew. split; [exact Hew | now rewrite Hgen].
  - intros (ew & Hew & Hm). f_equal. apply Hiff.
    exists ew. split; [exact Hew | now rewrite <- Hgen].
Qed.

End Api.

(** ** Counters and digits *)

(** X18. Two counters get the same message exactly when they are equal modulo
    2^64; no integer counter is refused. *)
Theorem toUint8Array_same_message (c1 c2 : Z) :
  toUint8Array (Js.Int c1) = toUint8Array (Js.Int c2) <-> c1 mod 2 ^ 64 = c2 mod 2 ^ 64.
Proof.
  rewrite !toUint8Array_int. split.
  - intros H.
    assert (E : counterBytes c1 = counterBytes c2) by congruence.
    destruct (counterBytes_value c1) as [_ <-].
    destruct (counterBytes_value c2) as [_ <-].
    now rewrite E.
  - intros H. f_equal. unfold counterBytes, Js.setBigUint64, Js.ToBigUint64.
    cbv zeta. now rewrite H.
Qed.

Lemma zeros_append (m n : nat) : zeros (m + n) = (zeros m ++ zeros n)%string.
Proof. induction m as [| m IH]; cbn; [reflexivity | now rewrite IH]. Qed.

Lemma filler_zeros (fuel n : nat) : (n <= fuel)%nat -> Js.filler fuel n "0" = zeros n.
Proof.
  revert n. induction fuel as [| fuel IH]; intros n Hn.
  - now replace n with 0%nat by lia.
  - cbn [Js.filler String.length].
    destruct (Nat.leb_spec n 1) as [Hle | Hgt].
    + destruct n as [| [| n]]; [reflexivity | reflexivity | lia].
    + rewrite IH by lia. destruct n as [| n]; [lia |].
      cbn [zeros append]. now replace (S n - 1)%nat with n by lia.
Qed.

Lemma padStart_zeros (s : string) (d : nat) :
  Js.padStart s d "0" = (zeros (d - String.length s) ++ s)%string.
Proof.
  unfold Js.padStart.
  destruct (Nat.leb_spec d (String.length s)) as [Hle | Hgt].
  - now replace (d - String.length s)%nat with 0%nat by lia.
  - cbn [String.length Nat.eqb]. now rewrite filler_zeros.
Qed.

(** X17. More than ten digits add nothing: for a key
    of at least one byte, the code for [digits >= 10] is the ten-digit code
    with [digits - 10] zeros in front, because the truncated value has 31
    bits. *)
Theorem hotp_code_beyond_ten_digits (HMAC : HashAlgorithm -> list byte -> list byte -> list byte)
  (key : list byte) (c : Z) (d : nat) (a : HashAlgorithm) :
  key <> [] ->
  (10 <= d)%nat ->
  exists code10,
    settled (hotp HMAC key (Js.Int c) {| hotp_digits := Some 10%nat; hotp_algorithm := Some a |})
    = Return code10
    /\ settled (hotp HMAC key (Js.Int c) {| hotp_digits := Some d; hotp_algorithm := Some a |})
       = Return (zeros (d - 10) ++ code10)%string.
Proof.
  intros Hne Hd. rewrite !hotp_int by assumption. cbn [settled snd].
  eexists. split; [reflexivity |]. f_equal.
  pose proof (hotp_binary_range (HMAC a key (counterBytes c))) as Hr.
  set (binary := hotp_binary _) in *.
  unfold hotp_code.
  assert (Hrem : forall n : nat, (10 <= n)%nat -> Z.rem binary (10 ^ Z.of_nat n) = binary).
  { intros n Hn. apply Z.rem_small. split; [lia |].
    apply Z.lt_le_trans with (10 ^ 10); [lia |].
    apply Z.pow_le_mono_r; lia. }
  rewrite (Hrem d Hd), (Hrem 10%nat (le_n _)).
  destruct (toString_decimal binary ltac:(lia)) as (_ & _ & Hlen).
  specialize (Hlen 10%nat ltac:(lia) ltac:(change (10 ^ Z.of_nat 10) with 10000000000; lia)).
  rewrite !padStart_zeros, <- append_assoc, <- zeros_append.
  f_equal. f_equal. lia.
Qed.

(** ** Generated secrets *)

(** A text over the alphabet is already clean: nothing to strip, nothing
    to upper-case. *)
Lemma alphabet_text_clean (unicodeUpper : string -> string) (s : string) :
  allInAlphabet s = true ->
  Js.replace_trailing_eq s = s /\ Js.toUpperCase unicodeUpper s = s.
Proof.
  unfold Js.toUpperCase.
  induction s as [| c s IH]; [split; reflexivity |].
  cbn [allInAlphabet]. intros H. apply andb_true_iff in H as [Hc Hs].
  destruct (IH Hs) as [Hr Hu]. destruct (upper_alphabet c Hc) as (Huc & Hne & Hascii).
  cbn [Js.replace_trailing_eq Js.toUpperCase_from]. rewrite Hr, Hascii, Hu, Huc.
  split; [| reflexivity].
  destruct s; [| reflexivity].
  destruct (Ascii.eqb_spec c "="%char); [contradiction | reflexivity].
Qed.

Lemma secretText_decodes (unicodeUpper : string -> string) (entropy : nat -> byte) (n : nat) :
  exists key,
    base32Decode unicodeUpper (secretText entropy n) = Return key
    /\ List.length key = (5 * n / 8)%nat.
Proof.
  destruct (secretText_shape entropy n) as (Hlen & Hall & _).
  destruct (alphabet_text_clean unicodeUpper _ Hall) as [Hr Hu].
  pose proof (base32Decode_spec unicodeUpper (secretText entropy n)) as H. cbv zeta in H.
  rewrite Hr, Hu, Hall in H.
  eexists. split; [exact H |].
  now rewrite (decoded_length _ Hall), Hlen.
Qed.

(** X6. Every secret that [generateTOTPSecret] returns is one that
    [base32Decode] accepts; the key has floor(5 n / 8) bytes: 20 for the
    default length 32. *)
Theorem base32Decode_generateTOTPSecret (unicodeUpper : string -> string)
  (entropy : nat -> byte) (n : nat) (secret : string) :
  generateTOTPSecret entropy n = Return secret ->
  exists key,
    base32Decode unicodeUpper secret = Return key
    /\ List.length key = (5 * n / 8)%nat.
Proof.
  intros H. apply generateTOTPSecret_returned in H as [_ ->].
  apply secretText_decodes.
Qed.

(** X19. The flow of the README: generate a secret,
    generate a code, verify it.  For a secret of at least 2 characters that
    [generateTOTPSecret] returned, a time step >= 1 and a window >= 0, it
    ends with true whenever the time-step counters of the two calls are at
    most [window] apart; they are equal when the options carry a timestamp,
    or the two calls read the same clock. *)
Theorem generated_secret_roundtrip
  (unicodeUpper : string -> string)
  (HMAC : HashAlgorithm -> list byte -> list byte -> list byte)
  (entropy : nat -> byte) (n : nat) (secret : string) (now1 now2 : Z) (opts : TOTPOptions) :
  (2 <= n)%nat ->
  generateTOTPSecret entropy n = Return secret ->
  1 <= Js.default (timeStep opts) 30 ->
  0 <= Js.default (window opts) 1 ->
  Z.abs (baseCounter now1 opts - baseCounter now2 opts) <= Js.default (window opts) 1 ->
  (exists code,
     settled (generateTOTP unicodeUpper HMAC now1 secret opts) = Return code
     /\ settled (verifyTOTP unicodeUpper HMAC now2 code secret opts) = Return true)
  /\ (timestamp opts <> None \/ now1 = now2 -> baseCounter now1 opts = baseCounter now2 opts).
Proof.
  intros Hn Hret Hstep Hw Hnear. split.
  - apply generateTOTPSecret_returned in Hret as [_ ->].
    destruct (secretText_decodes unicodeUpper entropy n) as (key & Hkey & Hlen).
    assert (Hne : key <> []).
    { intros ->. cbn [List.length] in Hlen.
      assert (1 <= 5 * n / 8)%nat by (apply Nat.div_le_lower_bound; lia). lia. }
    apply (verifyTOTP_accepts_near unicodeUpper HMAC now1 now2 _ opts opts key Hkey Hne);
      try lia.
    reflexivity.
  - unfold baseCounter. intros [H | ->]; [| reflexivity].
    destruct (timestamp opts); [reflexivity | contradiction].
Qed.

(** X20. A generated secret stands in the provisioning URI as it is. *)
Theorem generateTOTPURI_generated_secret (entropy : nat -> byte) (n : nat) (generated : string)
  (account iss : string) (d p : option Z) (a : option HashAlgorithm) :
  generateTOTPSecret entropy n = Return generated ->
  let o := {| accountName := account; issuer := iss;
              secret := generated;
              uri_digits := d; period := p; uri_algorithm := a |} in
  generateTOTPURI o = claimedURI o.
Proof.
  intros H o. apply generateTOTPURI_base32_secret.
  apply generateTOTPSecret_returned in H as [_ ->].
  apply secretText_shape.
Qed.

(** X21. No modulo bias: each character of the alphabet is what exactly 8 of
    the 256 byte values are turned into. *)
Theorem generateTOTPSecret_unbiased (c : ascii) :
  inAlphabet c = true ->
  List.length
    (filter (fun b => match generateTOTPSecret (fun _ => b) 1 with
                      | Return generated => (generated =? String c EmptyString)%string
                      | Throw _ => false
                      end)
            allBytes)
  = 8%nat.
Proof.
  destruct c as [b0 b1 b2 b3 b4 b5 b6 b7].
  destruct b0, b1, b2, b3, b4, b5, b6, b7; intros H; vm_compute in H;
    first [discriminate H | vm_compute; reflexivity].
Qed.

(** ** The provisioning URI: characters and separators *)

Lemma allEncodedChars_append (s1 s2 : string) :
  allEncodedChars (s1 ++ s2) = allEncodedChars s1 && allEncodedChars s2.
Proof.
  induction s1 as [| c s1 IH]; cbn; [reflexivity |].
  now rewrite IH, andb_assoc.
Qed.

Lemma allUriChars_append (s1 s2 : string) :
  allUriChars (s1 ++ s2) = allUriChars s1 && allUriChars s2.
Proof.
  induction s1 as [| c s1 IH]; cbn; [reflexivity |].
  now rewrite IH, andb_assoc.
Qed.

Lemma countChar_append (x : ascii) (s1 s2 : string) :
  countChar x (s1 ++ s2) = (countChar x s1 + countChar x s2)%nat.
Proof.
  induction s1 as [| c s1 IH]; cbn; [reflexivity |].
  rewrite IH. lia.
Qed.

Lemma encodeURIComponent_char (c : ascii) :
  allEncodedChars
    (if Js.isAlnum c || Js.mem c "-_.!~*'()" then String c EmptyString else Js.percent c)
  = true.
Proof.
  destruct c as [b0 b1 b2 b3 b4 b5 b6 b7].
  destruct b0, b1, b2, b3, b4, b5, b6, b7; reflexivity.
Qed.

Lemma urlencode_char (c : ascii) :
  allEncodedChars
    (if (c =? " ")%char then "+"
     else if Js.isAlnum c || Js.mem c "*-._" then String c EmptyString
     else Js.percent c)
  = true.
Proof.
  destruct c as [b0 b1 b2 b3 b4 b5 b6 b7].
  destruct b0, b1, b2, b3, b4, b5, b6, b7; reflexivity.
Qed.

Lemma encodeURIComponent_encoded (s : string) :
  allEncodedChars (Js.encodeURIComponent s) = true.
Proof.
  induction s as [| c s IH]; [reflexivity |].
  cbn [Js.encodeURIComponent].
  now rewrite allEncodedChars_append, encodeURIComponent_char, IH.
Qed.

Lemma urlencode_encoded (s : string) : allEncodedChars (Js.urlencode s) = true.
Proof.
  induction s as [| c s IH]; [reflexivity |].
  cbn [Js.urlencode].
  now rewrite allEncodedChars_append, urlencode_char, IH.
Qed.

Lemma toString_encoded (z : Z) : allEncodedChars (Js.toString 10 z) = true.
Proof. rewrite <- urlencode_toString. apply urlencode_encoded. Qed.

Lemma uriAlgorithmName_encoded (a : HashAlgorithm) :
  allEncodedChars (uriAlgorithmName a) = true.
Proof. now destruct a. Qed.

Lemma encodedChar_facts (c : ascii) :
  encodedChar c = true ->
  uriChar c = true
  /\ (c =? "?")%char = false /\ (c =? "&")%char = false /\ (c =? "=")%char = false.
Proof.
  destruct c as [b0 b1 b2 b3 b4 b5 b6 b7].
  destruct b0, b1, b2, b3, b4, b5, b6, b7; vm_compute; intros H;
    first [discriminate H | repeat split].
Qed.

Lemma allEncodedChars_facts (s : string) :
  allEncodedChars s = true ->
  allUriChars s = true
  /\ countChar "?" s = 0%nat /\ countChar "&" s = 0%nat /\ countChar "=" s = 0%nat.
Proof.
  induction s as [| c s IH]; [repeat split |].
  cbn [allEncodedChars allUriChars countChar]. intros H.
  apply andb_true_iff in H as [Hc Hs].
  destruct (encodedChar_facts c Hc) as (-> & -> & -> & ->).
  destruct (IH Hs) as (-> & -> & -> & ->). repeat split.
Qed.

(** The shape of the URI, shared by the two statements below. *)
Lemma generateTOTPURI_shape (o : TOTPURIOptions) :
  allUriChars (generateTOTPURI o) = true
  /\ countChar "?" (generateTOTPURI o) = 1%nat
  /\ countChar "&" (generateTOTPURI o) = 4%nat
  /\ countChar "=" (generateTOTPURI o) = 5%nat.
Proof.
  rewrite generateTOTPURI_parts.
  destruct (allEncodedChars_facts _
              (encodeURIComponent_encoded (issuer o ++ ":" ++ accountName o)))
    as (L1 & L2 & L3 & L4).
  destruct (allEncodedChars_facts _ (urlencode_encoded (secret o))) as (S1 & S2 & S3 & S4).
  destruct (allEncodedChars_facts _ (urlencode_encoded (issuer o))) as (I1 & I2 & I3 & I4).
  destruct (allEncodedChars_facts _
              (uriAlgorithmName_encoded (Js.default (uri_algorithm o) SHA1)))
    as (A1 & A2 & A3 & A4).
  destruct (allEncodedChars_facts _ (toString_encoded (Js.default (uri_digits o) 6)))
    as (D1 & D2 & D3 & D4).
  destruct (allEncodedChars_facts _ (toString_encoded (Js.default (period o) 30)))
    as (P1 & P2 & P3 & P4).
  rewrite !allUriChars_append, !countChar_append.
  rewrite L1, L2, L3, L4, S1, S2, S3, S4, I1, I2, I3, I4, A1, A2, A3, A4,
    D1, D2, D3, D4, P1, P2, P3, P4.
  repeat split.
Qed.

(** X22. Whatever the account name, issuer and secret are, the URI is made of
    letters, digits and the marks - _ . ! ~ * ' ( ) % + : / ? = & only: no
    space, no quote, no control or non-ASCII character. *)
Theorem generateTOTPURI_charset (o : TOTPURIOptions) :
  allUriChars (generateTOTPURI o) = true.
Proof. apply generateTOTPURI_shape. Qed.

(** X23. No input can add or remove a parameter: the URI has exactly one "?",
    four "&" and five "=", those of the five parameters. *)
Theorem generateTOTPURI_separators (o : TOTPURIOptions) :
  countChar "?" (generateTOTPURI o) = 1%nat
  /\ countChar "&" (generateTOTPURI o) = 4%nat
  /\ countChar "=" (generateTOTPURI o) = 5%nat.
Proof. apply generateTOTPURI_shape. Qed.

(** ** The countdown of the demo page *)

Lemma div_between (t D q : Z) : 0 < D -> q * D <= t < (q + 1) * D -> t / D = q.
Proof.
  intros HD H. symmetry. apply (Z.div_unique t D q (t - q * D)); lia.
Qed.

(** What [startCountdown] computes for a period >= 1. *)
Lemma startCountdown_values (now period : Z) :
  1 <= period ->
  let q := now / (1000 * period) in
  startCountdown now period
  = {| nextRefreshTime := Js.Int ((q + 1) * period);
       msUntilRefresh := Js.Int (((q + 1) * period - now / 1000) * 1000) |}.
Proof.
  intros Hp q. unfold startCountdown, floor_div.
  destruct (Z.eqb_spec period 0); [lia |].
  rewrite Z.div_div by lia. reflexivity.
Qed.


(** X25. Between the clock reading of
    [startCountdown] and the next refresh second the code does not change:
    at every time from [now], the reading of [startCountdown], up to the next
    refresh second, [generateTOTP] with the period as time step gives what it
    gives at [now]. *)
Theorem startCountdown_code_constant
  (unicodeUpper : string -> string)
  (HMAC : HashAlgorithm -> list byte -> list byte -> list byte)
  (now period : Z) (secret : string) (d : option nat) (a : option HashAlgorithm) :
  let opts := {| timeStep := Some period; digits := d; timestamp := None;
                 algorithm := a; window := None |} in
  1 <= period ->
  exists next,
    nextRefreshTime (startCountdown now period) = Js.Int next
    /\ forall t, now <= t < next * 1000 ->
         generateTOTP unicodeUpper HMAC t secret opts
         = generateTOTP unicodeUpper HMAC now secret opts.
Proof.
  intros opts Hp.
  rewrite (startCountdown_values now period Hp). cbn [nextRefreshTime].
  eexists. split; [reflexivity |]. intros t Ht.
  unfold generateTOTP. cbn [opts timeStep digits timestamp algorithm Js.default].
  rewrite !floor_div_1000_Zdiv by lia.
  set (q := now / (1000 * period)) in *.
  pose proof (Z.mul_div_le now (1000 * period) ltac:(lia)) as Hlo. fold q in Hlo.
  rewrite (div_between t (1000 * period) q); [reflexivity | lia | lia].
Qed.

(** X26. When the timeout fires, [msUntilRefresh] after [now], the counter is
    exactly one more than at [now]: the refreshed code is the next one. *)
Theorem startCountdown_refresh_next_counter (now period : Z)
  (d : option nat) (a : option HashAlgorithm) :
  let opts := {| timeStep := Some period; digits := d; timestamp := None;
                 algorithm := a; window := None |} in
  1 <= period ->
  exists ms,
    msUntilRefresh (startCountdown now period) = Js.Int ms
    /\ baseCounter (now + ms) opts = baseCounter now opts + 1.
Proof.
  intros opts Hp. rewrite (startCountdown_values now period Hp). cbn [msUntilRefresh].
  eexists. split; [reflexivity |].
  unfold baseCounter. cbn [opts timeStep timestamp Js.default].
  set (q := now / (1000 * period)).
  pose proof (Z.mul_div_le now (1000 * period) ltac:(lia)) as Hlo. fold q in Hlo.
  pose proof (Z.mul_succ_div_gt now (1000 * period) ltac:(lia)) as Hhi. fold q in Hhi.
  pose proof (Z.mul_div_le now 1000 ltac:(lia)) as Hs.
  pose proof (Z.mul_succ_div_gt now 1000 ltac:(lia)) as Hs'.
  assert (Hq : q = now / 1000 / period) by (unfold q; rewrite Z.div_div; lia).
  pose proof (Z.mul_succ_div_gt (now / 1000) period ltac:(lia)) as Hc.
  rewrite <- Hq in Hc.
  apply div_between; lia.
Qed.

(** ** Worked examples of the further properties *)

Lemma base32Decode_case_insensitive_witness :
  base32Decode exampleUpper "mzxw6ytb" = base32Decode exampleUpper "MZXW6YTB".
Proof.
  apply (base32Decode_case_insensitive exampleUpper "mzxw6ytb" "MZXW6YTB"). reflexivity.
Defined.

Lemma base32Decode_length_witness :
  List.length exampleKey
  = (5 * String.length (Js.toUpperCase exampleUpper (Js.replace_trailing_eq "mzxw6ytb====")) / 8)%nat
  /\ (isAsciiText "mzxw6ytb====" = true ->
      List.length exampleKey
      = (5 * String.length (Js.replace_trailing_eq "mzxw6ytb====") / 8)%nat).
Proof. apply (base32Decode_length exampleUpper "mzxw6ytb====" exampleKey). reflexivity. Defined.

(** A secret typed in groups, with a space. *)
Lemma base32Decode_rejects_foreign_witness :
  base32Decode exampleUpper "MZXW 6YTB" = Throw (Error "Invalid Base32 character in secret").
Proof.
  apply (base32Decode_rejects_foreign exampleUpper "MZXW 6YTB" " "%char).
  - cbn. tauto.
  - reflexivity.
  - discriminate.
  - reflexivity.
Defined.

Lemma base32Decode_rejects_inner_padding_witness :
  base32Decode exampleUpper "MZXW=6YTB" = Throw (Error "Invalid Base32 character in secret").
Proof.
  apply (base32Decode_rejects_inner_padding exampleUpper "MZXW" "YTB" "6"%char). discriminate.
Defined.

Lemma base32Decode_generateTOTPSecret_witness :
  exists key,
    base32Decode exampleUpper "AFKPUZ6DINSX4BGLQV27EJOT" = Return key
    /\ List.length key = (5 * 24 / 8)%nat.
Proof.
  apply (base32Decode_generateTOTPSecret exampleUpper
           (fun i => byte.of_Z (Z.of_nat (37 * i))) 24).
  reflexivity.
Defined.

Lemma verifyTOTP_call_count_witness :
  exists tried : Z,
    1 <= tried <= 3
    /\ Z.of_nat (List.length (made (verifyTOTP exampleUpper exampleHMAC 0 "000000" "MZXW6YTB"
                                      exampleOptions)))
       = 2 * tried.
Proof.
  destruct (verifyTOTP_call_count exampleUpper exampleHMAC 0 "000000" "MZXW6YTB" exampleOptions
              exampleKey eq_refl ltac:(discriminate) ltac:(cbn; lia) ltac:(cbn; lia))
    as (tried & Hb & Hl & _).
  exists tried. split; [exact Hb | exact Hl].
Defined.

Lemma verifyTOTP_window_monotone_witness :
  settled (verifyTOTP exampleUpper exampleHMAC 0 "041720" "MZXW6YTB"
             (withWindow exampleOptions (Some 5)))
  = Return true.
Proof.
  apply (verifyTOTP_window_monotone exampleUpper exampleHMAC 0 "041720" "MZXW6YTB"
           exampleOptions 0 5).
  - vm_compute. reflexivity.
  - lia.
Defined.

(** The drift of the test suite: 15 seconds, time step 30, window 1. *)
Lemma verifyTOTP_tolerates_drift_witness :
  exists code,
    settled (generateTOTP exampleUpper exampleHMAC 0 "MZXW6YTB"
               (withTimestamp exampleOptions 59000))
    = Return code
    /\ settled (verifyTOTP exampleUpper exampleHMAC 0 code "MZXW6YTB"
                  (withTimestamp exampleOptions 74000))
       = Return true.
Proof.
  apply (verifyTOTP_tolerates_drift exampleUpper exampleHMAC 0 0 "MZXW6YTB" exampleOptions
           exampleKey 59000 74000).
  - reflexivity.
  - discriminate.
  - cbn. lia.
  - cbn. lia.
  - cbn. lia.
Defined.

Lemma verifyTOTP_rejects_malformed_token_witness :
  settled (verifyTOTP exampleUpper exampleHMAC 0 "41720" "MZXW6YTB" exampleOptions)
  = Return false.
Proof.
  apply (verifyTOTP_rejects_malformed_token exampleUpper exampleHMAC 0 "41720" "MZXW6YTB"
           exampleOptions exampleKey).
  - reflexivity.
  - discriminate.
  - cbn. lia.
  - cbn. lia.
  - left. cbn. lia.
Defined.

Lemma generateTOTP_constant_within_step_witness :
  generateTOTP exampleUpper exampleHMAC 0 "MZXW6YTB"
    (withTimestamp exampleOptions (1 * (1000 * 30) + 29999))
  = generateTOTP exampleUpper exampleHMAC 0 "MZXW6YTB"
      (withTimestamp exampleOptions (1 * (1000 * 30))).
Proof.
  apply (generateTOTP_constant_within_step exampleUpper exampleHMAC 0 "MZXW6YTB"
           exampleOptions 1 29999).
  - cbn. lia.
  - cbn. lia.
Defined.

Lemma zero_digits_code_witness :
  settled (generateTOTP exampleUpper exampleHMAC 0 "MZXW6YTB"
             {| timeStep := Some 30; digits := Some 0%nat; timestamp := Some 59000;
                algorithm := Some SHA1; window := Some 1 |})
  = Return "0".
Proof.
  apply (zero_digits_code exampleUpper exampleHMAC 0 0 "MZXW6YTB"
           {| timeStep := Some 30; digits := Some 0%nat; timestamp := Some 59000;
              algorithm := Some SHA1; window := Some 1 |} exampleKey).
  - reflexivity.
  - discriminate.
  - cbn. lia.
  - cbn. lia.
  - reflexivity.
Defined.

Lemma verifyTOTP_accepts_iff_generated_witness :
  settled (verifyTOTP exampleUpper exampleHMAC 0 "041720" "MZXW6YTB" exampleOptions)
  = Return true
  <-> exists ew,
        - 1 <= ew <= 1
        /\ settled (generateTOTP exampleUpper exampleHMAC 0 "MZXW6YTB"
                      (withTimestamp exampleOptions (59000 + ew * (1000 * 30))))
           = Return "041720".
Proof.
  apply (verifyTOTP_accepts_iff_generated exampleUpper exampleHMAC 0 "041720" "MZXW6YTB"
           exampleOptions exampleKey).
  - reflexivity.
  - cbn. lia.
  - cbn. lia.
Defined.

Lemma hotp_code_beyond_ten_digits_witness :
  exists code10,
    settled (hotp exampleHMAC exampleKey (Js.Int 1)
               {| hotp_digits := Some 10%nat; hotp_algorithm := Some SHA1 |})
    = Return code10
    /\ settled (hotp exampleHMAC exampleKey (Js.Int 1)
                  {| hotp_digits := Some 12%nat; hotp_algorithm := Some SHA1 |})
       = Return (zeros (12 - 10) ++ code10)%string.
Proof.
  apply (hotp_code_beyond_ten_digits exampleHMAC exampleKey 1 12 SHA1); [discriminate | lia].
Defined.

(** A secret of 24 characters, generated, then used five milliseconds
    apart with the clock of the calls. *)
Lemma generated_secret_roundtrip_witness :
  exists code,
    settled (generateTOTP exampleUpper exampleHMAC 29998 "AFKPUZ6DINSX4BGLQV27EJOT"
               clockOptions)
    = Return code
    /\ settled (verifyTOTP exampleUpper exampleHMAC 30003 code "AFKPUZ6DINSX4BGLQV27EJOT"
                  clockOptions)
       = Return true.
Proof.
  refine (proj1 (generated_secret_roundtrip exampleUpper exampleHMAC
                   (fun i => byte.of_Z (Z.of_nat (37 * i))) 24 "AFKPUZ6DINSX4BGLQV27EJOT"
                   29998 30003 clockOptions _ _ _ _ _)).
  - lia.
  - reflexivity.
  - cbn. lia.
  - cbn. lia.
  - vm_compute. discriminate.
Defined.

Lemma generateTOTPURI_generated_secret_witness :
  let o := {| accountName := "info@rabbit-company.com"; issuer := "Rabbit Company";
              secret := "AFKPUZ6DINSX4BGLQV27EJOT";
              uri_digits := None; period := None; uri_algorithm := None |} in
  generateTOTPURI o = claimedURI o.
Proof.
  apply (generateTOTPURI_generated_secret (fun i => byte.of_Z (Z.of_nat (37 * i))) 24
           "AFKPUZ6DINSX4BGLQV27EJOT" "info@rabbit-company.com" "Rabbit Company"
           None None None).
  reflexivity.
Defined.

Lemma generateTOTPSecret_unbiased_witness :
  List.length
    (filter (fun b => match generateTOTPSecret (fun _ => b) 1 with
                      | Return generated => (generated =? "A")%string
                      | Throw _ => false
                      end)
            allBytes)
  = 8%nat.
Proof. apply (generateTOTPSecret_unbiased "A"%char). reflexivity. Defined.


Lemma startCountdown_code_constant_witness :
  exists next,
    nextRefreshTime (startCountdown 59000 30) = Js.Int next
    /\ forall t, 59000 <= t < next * 1000 ->
         generateTOTP exampleUpper exampleHMAC t "MZXW6YTB"
           {| timeStep := Some 30; digits := Some 6%nat; timestamp := None;
              algorithm := Some SHA1; window := None |}
         = generateTOTP exampleUpper exampleHMAC 59000 "MZXW6YTB"
             {| timeStep := Some 30; digits := Some 6%nat; timestamp := None;
                algorithm := Some SHA1; window := None |}.
Proof.
  apply (startCountdown_code_constant exampleUpper exampleHMAC 59000 30 "MZXW6YTB"
           (Some 6%nat) (Some SHA1)).
  lia.
Defined.

Lemma startCountdown_refresh_next_counter_witness :
  exists ms,
    msUntilRefresh (startCountdown 59000 30) = Js.Int ms
    /\ baseCounter (59000 + ms)
         {| timeStep := Some 30; digits := Some 6%nat; timestamp := None;
            algorithm := Some SHA1; window := None |}
       = baseCounter 59000
           {| timeStep := Some 30; digits := Some 6%nat; timestamp := None;
              algorithm := Some SHA1; window := None |} + 1.
Proof.
  apply (startCountdown_refresh_next_counter 59000 30 (Some 6%nat) (Some SHA1)). lia.
Defined.
